(** * ftl/common/builder.py: layer composition and store dispatch

    A shallow embedding of [RuntimeBase] from [ftl/common/builder.py]:
    its constructor (which splits two fields of the argument object in
    place), [AppendLayersIntoImage] (the fold of layer images onto a base)
    and [StoreImage] (tarball or registry push).

    Python objects that the code mutates live in a store and are passed by
    location; exceptions are the left summand of a result; calls into the
    registry library, the file system and the logger are recorded in the
    state that every method threads. *)

From Stdlib Require Import Ascii String.
From stdpp Require Import gmap strings list fin_maps.

Open Scope string_scope.
Open Scope list_scope.

(** ** Python strings *)

Module str.

(** [s.split(sep)] for a one-character separator, which is how the
    source calls it ([split(" ")]): every occurrence of the separator ends
    a token, and no token is dropped, empty ones included. *)
Fixpoint split (s : string) (sep : ascii) : list string :=
  match s with
  | EmptyString => [EmptyString]
  | String c s' =>
      if Ascii.eqb c sep then EmptyString :: split s' sep
      else match split s' sep with
           | tok :: toks => String c tok :: toks
           | [] => [String c EmptyString]
           end
  end.

(** Truth value of a string: only the empty one is false. *)
Definition truthy (s : string) : bool :=
  match s with EmptyString => false | String _ _ => true end.

End str.

Definition space : ascii := " "%char.

(** ** Values, errors and the argument object *)

(** The exceptions the modelled code can end in. *)
Inductive PyErr :=
| UnboundLocalError   (* a local variable read before any assignment *)
| AttributeError      (* a method that the receiver does not have *)
| ValueError          (* malformed JSON text; a diff id no layer carries *)
| LookupError         (* a digest that has no blob *)
| BadNameException    (* an image reference that does not parse *)
| IOError             (* the base image cannot be opened *)
| InvalidReference.   (* a location outside the store; no Python program gets there *)

Definition result (A : Type) : Type := PyErr + A.

(** The value of [args.entrypoint] and [args.exposed_ports]: [None] or a
    string as parsed from the command line, a list once it has been split. *)
Inductive PyVal :=
| PyNone
| PyStr (s : string)
| PyList (l : list string).

(** Python's truth value, as tested by [if v:]. *)
Definition truthy (v : PyVal) : bool :=
  match v with
  | PyNone => false
  | PyStr s => str.truthy s
  | PyList [] => false
  | PyList (_ :: _) => true
  end.

Definition opt_truthy (o : option string) : bool :=
  match o with
  | None => false
  | Some s => str.truthy s
  end.

(** [v.split(" ")]: only strings have the method. *)
Definition split_method (v : PyVal) : result PyVal :=
  match v with
  | PyStr s => inr (PyList (str.split s space))
  | PyNone | PyList _ => inl AttributeError
  end.

(** The [args] object; its fields are the attributes the class reads. *)
Record Args := {
  base : string;
  name : string;
  entrypoint : PyVal;
  exposed_ports : PyVal;
  tar_base_image_path : option string;
  cache_repository : option string;
  global_cache : bool;
  output_path : option string;
  upload : bool
}.

(** [args.entrypoint = v] and [args.exposed_ports = v]. *)
Definition set_entrypoint (v : PyVal) (a : Args) : Args :=
  {| base := base a; name := name a;
     entrypoint := v;
     exposed_ports := exposed_ports a;
     tar_base_image_path := tar_base_image_path a;
     cache_repository := cache_repository a;
     global_cache := global_cache a;
     output_path := output_path a; upload := upload a |}.

Definition set_exposed_ports (v : PyVal) (a : Args) : Args :=
  {| base := base a; name := name a;
     entrypoint := entrypoint a;
     exposed_ports := v;
     tar_base_image_path := tar_base_image_path a;
     cache_repository := cache_repository a;
     global_cache := global_cache a;
     output_path := output_path a; upload := upload a |}.

(** ** Images *)

Abbreviation DiffId := string (only parsing).
Abbreviation Digest := string (only parsing).
Abbreviation Blob := string (only parsing).
Abbreviation loc := nat (only parsing).

(** Modelled from the spec: the image type of the registry client library,
    which is not part of the repository. An image is an ordered sequence of
    layers, each a content-addressed blob with a diff identifier, plus its
    config manifest. [fs_layers] and [diff_ids] run in parallel, bottom layer
    first, which is the order in which the config keeps them. *)
Record Image := {
  fs_layers : list Digest;
  diff_ids : list DiffId;
  blobs : gmap string Blob;
  config_file : string
}.

(** Modelled from the spec: the digest of the layer that carries a diff
    identifier; a diff identifier that no layer carries is a lookup failure. *)
Fixpoint first_match (pairs : list (Digest * DiffId)) (diff_id : DiffId)
  : result Digest :=
  match pairs with
  | [] => inl ValueError
  | (this_digest, this_diff_id) :: rest =>
      if decide (this_diff_id = diff_id) then inr this_digest
      else first_match rest diff_id
  end.

Definition _diff_id_to_digest (img : Image) (diff_id : DiffId) : result Digest :=
  first_match (zip (fs_layers img) (diff_ids img)) diff_id.

(** Modelled from the spec: the blob stored under a digest; a declared layer
    without a blob is a lookup failure. *)
Definition blob (img : Image) (digest : Digest) : result Blob :=
  match blobs img !! digest with
  | Some b => inr b
  | None => inl LookupError
  end.

(** An element of the sequence handed to [AppendLayersIntoImage]. The
    callers put the base image first, an image object used as it is, and
    then objects that hand out their image through [GetImage()]. *)
Inductive LyrImg :=
| DockerImage (img : Image)
| LayerBuilder (img : Image).

Definition GetImage (lyr_img : LyrImg) : result Image :=
  match lyr_img with
  | LayerBuilder img => inr img
  | DockerImage _ => inl AttributeError
  end.

(** The diff identifiers an element stands for. *)
Definition own_diff_ids (lyr_img : LyrImg) : list DiffId :=
  match lyr_img with
  | DockerImage img | LayerBuilder img => diff_ids img
  end.

Definition _THREADS : nat := 32.

(** [transport_pool.Http(httplib2.Http, size=...)] *)
Record Transport := { size_ : nat }.

(** ** Collaborators

    What the class calls but does not define: image references and the
    keychain, the JSON parser, the conversion of a config dictionary to
    overrides, the hash and the config merge of the layer-append library,
    and the opening of the base image. They are taken as given. *)
Class Collaborators := {
  Ctx : Type;
  Tag : Type;
  Repository : Type;
  Creds : Type;
  CfgDct : Type;
  Overrides : Type;
  (* docker_name.Tag(name), str(tag), tag.as_repository() *)
  docker_name_Tag : string → result Tag;
  Tag_str : Tag → string;
  as_repository : Tag → Repository;
  (* docker_creds.DefaultKeychain.Resolve(name) *)
  Resolve : Tag → Creds;
  (* json.loads(text) and ftl_util.CfgDctToOverrides(dct) *)
  json_loads : string → result CfgDct;
  CfgDctToOverrides : CfgDct → Overrides;
  (* the digest of a blob and the config of an image with overrides applied *)
  SHA256 : Blob → Digest;
  metadata_Override : string → Overrides → string;
  (* docker_image.FromTarball / FromRegistry and the handle's __enter__ *)
  FromTarball : string → Image;
  FromRegistry : Tag → Creds → Transport → Image;
  image_enter : Image → result unit
}.

Section Model.
Context `{!Collaborators}.

(** Modelled from the spec: [append.Layer(base, lyr, diff_id=, overrides=)]
    of the registry client library, which is not part of the repository. The
    new image carries the layers of [base] followed by the new blob under
    the given diff identifier, with the overrides applied to the config. The
    base has to be an image. *)
Definition append_Layer (base_ : LyrImg) (lyr : Blob) (diff_id : DiffId)
    (overrides : Overrides) : result Image :=
  match base_ with
  | DockerImage b =>
      inr {| fs_layers := fs_layers b ++ [SHA256 lyr];
             diff_ids := diff_ids b ++ [diff_id];
             blobs := <[SHA256 lyr := lyr]> (blobs b);
             config_file := metadata_Override (config_file b) overrides |}
  | LayerBuilder _ => inl AttributeError
  end.

(** [cache_repo]: the configured repository name, or the target's. *)
Inductive CacheRepo :=
| RepoName (s : string)
| RepoOf (r : Repository).

(** Modelled from the spec: the cache client, of which only the
    construction parameters matter here. *)
Record CacheRegistry := {
  repo : CacheRepo;
  namespace : string;
  base_image : Image;
  creds : Creds;
  transport : Transport;
  cache_version : string;
  threads : nat;
  mount : list Tag;
  use_global : bool
}.

(** The attributes of a [RuntimeBase]. [_args] is a reference: the object
    is the one the caller passed in. *)
Record RuntimeBase := {
  _ctx : Ctx;
  _namespace : string;
  _args : loc;
  _base_name : Tag;
  _base_creds : Creds;
  _target_image : Tag;
  _target_creds : Creds;
  _transport : Transport;
  _base_image : Image;
  _cache : CacheRegistry;
  _descriptor_files : list string
}.

(** ** The state that methods thread *)

(** [save.tarball(name, image, tar)] into a file opened for writing. *)
Record Tarball := { tar_name : Tag; tar_image : Image }.

(** [docker_session.Push(name, creds, transport, threads=, mount=)] followed
    by [session.upload(image)]. *)
Record PushRecord := {
  push_name : Tag;
  push_creds : Creds;
  push_transport : Transport;
  push_threads : nat;
  push_mount : list Tag;
  push_image : Image
}.

Inductive LogEvent :=
| Info (msg : string)
| Timing (descriptor : string).

(** Reads of an image that composition performs. *)
Inductive Call :=
| blob_call (digest : Digest)
| json_loads_call (text : string)
| append_Layer_call (diff_id : DiffId).

Record World := {
  heap : gmap nat Args;          (* the argument objects, by reference *)
  files : gmap string Tarball;   (* the local file system *)
  pushes : list PushRecord;      (* what was pushed to registries *)
  log : list LogEvent;
  calls : list Call
}.

Definition set_heap (h : gmap nat Args) (w : World) : World :=
  {| heap := h; files := files w; pushes := pushes w; log := log w;
     calls := calls w |}.
Definition set_files (f : gmap string Tarball) (w : World) : World :=
  {| heap := heap w; files := f; pushes := pushes w; log := log w;
     calls := calls w |}.
Definition set_pushes (p : list PushRecord) (w : World) : World :=
  {| heap := heap w; files := files w; pushes := p; log := log w;
     calls := calls w |}.
Definition set_log (l : list LogEvent) (w : World) : World :=
  {| heap := heap w; files := files w; pushes := pushes w; log := l;
     calls := calls w |}.
Definition set_calls (c : list Call) (w : World) : World :=
  {| heap := heap w; files := files w; pushes := pushes w; log := log w;
     calls := c |}.

(** A computation: it ends in a value or an exception, and in both cases
    leaves a state behind. *)
Definition M (A : Type) : Type := World → result A * World.

#[global] Instance M_ret : MRet M := λ A a w, (inr a, w).
#[global] Instance M_bind : MBind M := λ A B f m w,
  match m w with
  | (inr a, w') => f a w'
  | (inl e, w') => (inl e, w')
  end.

Definition raise {A} (e : PyErr) : M A := λ w, (inl e, w).
Definition lift {A} (r : result A) : M A := λ w, (r, w).
Definition modify (f : World → World) : M unit := λ w, (inr (), f w).

Definition record_call (c : Call) : M unit :=
  modify (λ w, set_calls (calls w ++ [c]) w).
Definition logging_info (msg : string) : M unit :=
  modify (λ w, set_log (log w ++ [Info msg]) w).

(** A local variable that may not have been assigned yet. *)
Definition read_local {A} (v : option A) : M A :=
  match v with
  | Some a => mret a
  | None => raise UnboundLocalError
  end.

(** [for x in xs: body], threading the locals the body assigns. *)
Fixpoint for_in {A S} (xs : list A) (body : A → S → M S) (s : S) : M S :=
  match xs with
  | [] => mret s
  | x :: xs' => s' ← body x s; for_in xs' body s'
  end.

Fixpoint enumerate_from {A} (i : nat) (xs : list A) : list (nat * A) :=
  match xs with
  | [] => []
  | x :: xs' => (i, x) :: enumerate_from (S i) xs'
  end.

Definition enumerate {A} (xs : list A) : list (nat * A) := enumerate_from 0 xs.

(** ** RuntimeBase.AppendLayersIntoImage *)

(** The body of the inner loop: one layer of [img] onto [result_image]. *)
Definition append_one (img : Image) (diff_id : DiffId)
    (result_image : option LyrImg) : M (option LyrImg) :=
  digest ← lift (_diff_id_to_digest img diff_id);
  record_call (blob_call digest);;
  lyr ← lift (blob img digest);
  record_call (json_loads_call (config_file img));;
  dct ← lift (json_loads (config_file img));
  let overrides := CfgDctToOverrides dct in
  acc ← read_local result_image;
  record_call (append_Layer_call diff_id);;
  appended ← lift (append_Layer acc lyr diff_id overrides);
  mret (Some (DockerImage appended)).

(** The accessor [img.diff_ids()] of the registry client library, which is
    not part of the repository: it parses the config of the image, and it
    lists the diff identifiers top layer first, the reverse of the order in
    which the config keeps them and in which [append.Layer] extends them. *)
Definition listed_diff_ids (img : Image) : result (list DiffId) :=
  match json_loads (config_file img) with
  | inl e => inl e
  | inr _ => inr (rev (diff_ids img))
  end.

(** The body of the outer loop; [continue] ends the pass for element 0. *)
Definition layer_pass (item : nat * LyrImg) (result_image : option LyrImg)
  : M (option LyrImg) :=
  let '(i, lyr_img) := item in
  if decide (i = 0) then mret (Some lyr_img)
  else
    img ← lift (GetImage lyr_img);
    listed ← lift (listed_diff_ids img);
    for_in listed (append_one img) result_image.

Definition AppendLayersIntoImage (lyr_imgs : list LyrImg) : M LyrImg :=
  result_image ← for_in (enumerate lyr_imgs) layer_pass None;
  read_local result_image.

(** ** Attribute access on the argument object *)

Definition getattr {A} (a : loc) (field : Args → A) : M A := λ w,
  match heap w !! a with
  | Some obj => (inr (field obj), w)
  | None => (inl InvalidReference, w)
  end.

Definition setattr (a : loc) (assign : Args → Args) : M unit := λ w,
  match heap w !! a with
  | Some obj => (inr (), set_heap (<[a := assign obj]> (heap w)) w)
  | None => (inl InvalidReference, w)
  end.

(** ** RuntimeBase.__init__ *)

Definition __init__ (ctx : Ctx) (namespace_ : string) (args : loc)
    (cache_version_str : string) (descriptor_files : list string)
  : M RuntimeBase :=
  v ← getattr args entrypoint;
  (if truthy v then
     tokens ← lift (split_method v);
     setattr args (set_entrypoint tokens)
   else mret ());;
  v ← getattr args exposed_ports;
  (if truthy v then
     tokens ← lift (split_method v);
     setattr args (set_exposed_ports tokens)
   else mret ());;
  base_str ← getattr args base;
  base_name ← lift (docker_name_Tag base_str);
  let base_creds := Resolve base_name in
  name_str ← getattr args name;
  target_image ← lift (docker_name_Tag name_str);
  let target_creds := Resolve target_image in
  let transport_ := {| size_ := _THREADS |} in
  path ← getattr args tar_base_image_path;
  let base_image_ :=
    match path with
    | Some p =>
        if str.truthy p then FromTarball p
        else FromRegistry base_name base_creds transport_
    | None => FromRegistry base_name base_creds transport_
    end in
  lift (image_enter base_image_);;
  cache_repo ← getattr args cache_repository;
  let cache_repo :=
    match cache_repo with
    | Some r =>
        if str.truthy r then RepoName r
        else RepoOf (as_repository target_image)
    | None => RepoOf (as_repository target_image)
    end in
  use_global_ ← getattr args global_cache;
  mret {| _ctx := ctx;
          _namespace := namespace_;
          _args := args;
          _base_name := base_name;
          _base_creds := base_creds;
          _target_image := target_image;
          _target_creds := target_creds;
          _transport := transport_;
          _base_image := base_image_;
          _cache := {| repo := cache_repo;
                       namespace := namespace_;
                       base_image := base_image_;
                       creds := target_creds;
                       transport := transport_;
                       cache_version := cache_version_str;
                       threads := _THREADS;
                       mount := [base_name];
                       use_global := use_global_ |};
          _descriptor_files := descriptor_files |}.

(** ** RuntimeBase.StoreImage *)

(** Modelled from the spec: [with ftl_util.Timing(descriptor)], which is
    not under the sources: the block runs, then its completion is logged
    under the descriptor. *)
Definition with_Timing {A} (descriptor : string) (block : M A) : M A :=
  r ← block;
  modify (λ w, set_log (log w ++ [Timing descriptor]) w);;
  mret r.

(** [with tarfile.open(name=path, mode='w') as tar: save.tarball(...)] *)
Definition save_tarball (path : string) (name_ : Tag) (image : Image) : M unit :=
  modify (λ w,
    set_files (<[path := {| tar_name := name_; tar_image := image |}]> (files w)) w).

(** [with docker_session.Push(...) as session: session.upload(image)] *)
Definition session_upload (p : PushRecord) : M unit :=
  modify (λ w, set_pushes (pushes w ++ [p]) w).

(** The block under [if self._args.output_path:]. *)
Definition saving_tarball_image (self : RuntimeBase) (result_image : Image)
    (path : string) : M unit :=
  with_Timing "saving_tarball_image"
    (save_tarball path (_target_image self) result_image;;
     logging_info
       (Tag_str (_target_image self) +:+ " tarball located at " +:+ path)).

(** The block under [if self._args.upload:]. *)
Definition pushing_image_to_docker_registry (self : RuntimeBase)
    (result_image : Image) : M unit :=
  with_Timing "pushing_image_to_docker_registry"
    (logging_info "Pushing final image...";;
     session_upload {| push_name := _target_image self;
                       push_creds := _target_creds self;
                       push_transport := _transport self;
                       push_threads := _THREADS;
                       push_mount := [_base_name self];
                       push_image := result_image |}).

(** What follows the first [if] when its test is false. *)
Definition after_output_path (self : RuntimeBase) (result_image : Image)
  : M unit :=
  up ← getattr (_args self) upload;
  if up : bool then pushing_image_to_docker_registry self result_image
  else mret ().

Definition StoreImage (self : RuntimeBase) (result_image : Image) : M unit :=
  out ← getattr (_args self) output_path;
  match out with
  | Some path =>
      if str.truthy path then saving_tarball_image self result_image path
      else after_output_path self result_image
  | None => after_output_path self result_image
  end.

(** An image with the given layers, each a diff identifier and its blob. *)
Definition image_of (layers : list (DiffId * Blob)) (cfg : string) : Image :=
  {| fs_layers := (λ l, SHA256 l.2) <$> layers;
     diff_ids := fst <$> layers;
     blobs := list_to_map ((λ l, (SHA256 l.2, l.2)) <$> layers);
     config_file := cfg |}.

(** Whether a result is a value. *)
Definition is_ok {A} (r : result A) : bool :=
  match r with inr _ => true | inl _ => false end.

(** An element that composition can consume after the base: it hands out an
    image, every diff identifier of that image leads to a blob, and its
    config parses. *)
Definition layer_ok (lyr_img : LyrImg) : bool :=
  match lyr_img with
  | DockerImage _ => false
  | LayerBuilder img =>
      forallb (λ diff_id,
                 match _diff_id_to_digest img diff_id with
                 | inr digest => is_ok (blob img digest)
                 | inl _ => false
                 end) (diff_ids img)
      && is_ok (json_loads (config_file img))
  end.

(** The diff identifiers of an element in the order in which the loop comes
    by them: top layer first. *)
Definition top_first (lyr_img : LyrImg) : list DiffId :=
  rev (own_diff_ids lyr_img).

(** ** Definitions that the statements below use *)

(** A computation that leaves the state alone, whether it returns or
    raises. *)
Definition stateless {A} (m : M A) : Prop := ∀ w, (m w).2 = w.

(** What the two conditional assignments leave in a field. *)
Definition split_field (v : PyVal) : PyVal :=
  match v with
  | PyStr s => if str.truthy s then PyList (str.split s space) else v
  | PyNone | PyList _ => v
  end.

(** A non-empty list, the one value on which the constructor raises. *)
Definition is_tokens (v : PyVal) : bool :=
  match v with
  | PyList (_ :: _) => true
  | _ => false
  end.

(** The argument object after the constructor ran on [obj]. *)
Definition constructed_args (obj : Args) : Args :=
  if is_tokens (entrypoint obj) then obj
  else set_exposed_ports (split_field (exposed_ports obj))
         (set_entrypoint (split_field (entrypoint obj)) obj).

(** The constructor from [self._args = args] on. *)
Definition init_from_line_81 (ctx : Ctx) (namespace_ : string) (args : loc)
    (cache_version_str : string) (descriptor_files : list string)
  : M RuntimeBase :=
  base_str ← getattr args base;
  base_name ← lift (docker_name_Tag base_str);
  let base_creds := Resolve base_name in
  name_str ← getattr args name;
  target_image ← lift (docker_name_Tag name_str);
  let target_creds := Resolve target_image in
  let transport_ := {| size_ := _THREADS |} in
  path ← getattr args tar_base_image_path;
  let base_image_ :=
    match path with
    | Some p =>
        if str.truthy p then FromTarball p
        else FromRegistry base_name base_creds transport_
    | None => FromRegistry base_name base_creds transport_
    end in
  lift (image_enter base_image_);;
  cache_repo ← getattr args cache_repository;
  let cache_repo :=
    match cache_repo with
    | Some r =>
        if str.truthy r then RepoName r
        else RepoOf (as_repository target_image)
    | None => RepoOf (as_repository target_image)
    end in
  use_global_ ← getattr args global_cache;
  mret {| _ctx := ctx;
          _namespace := namespace_;
          _args := args;
          _base_name := base_name;
          _base_creds := base_creds;
          _target_image := target_image;
          _target_creds := target_creds;
          _transport := transport_;
          _base_image := base_image_;
          _cache := {| repo := cache_repo;
                       namespace := namespace_;
                       base_image := base_image_;
                       creds := target_creds;
                       transport := transport_;
                       cache_version := cache_version_str;
                       threads := _THREADS;
                       mount := [base_name];
                       use_global := use_global_ |};
          _descriptor_files := descriptor_files |}.

(** The constructor from [if args.exposed_ports:] on. *)
Definition init_from_line_79 (ctx : Ctx) (namespace_ : string) (args : loc)
    (cache_version_str : string) (descriptor_files : list string)
  : M RuntimeBase :=
  v ← getattr args exposed_ports;
  (if truthy v then
     tokens ← lift (split_method v);
     setattr args (set_exposed_ports tokens)
   else mret ());;
  init_from_line_81 ctx namespace_ args cache_version_str descriptor_files.

(** What holds of an object that the constructor returned for [obj]. *)
Definition constructed_for (args : loc) (obj : Args) (self : RuntimeBase)
  : Prop :=
  _args self = args
  ∧ docker_name_Tag (base obj) = inr (_base_name self)
  ∧ docker_name_Tag (name obj) = inr (_target_image self)
  ∧ _target_creds self = Resolve (_target_image self).

(** Where a string has a space that separates nothing. *)
Inductive stray_space : string → Prop :=
| leading_space t : stray_space (" " +:+ t)
| trailing_space t : stray_space (t +:+ " ")
| consecutive_spaces t u : stray_space (t +:+ "  " +:+ u).

(** The image an element stands for. *)
Definition the_image (lyr_img : LyrImg) : Image :=
  match lyr_img with
  | DockerImage img | LayerBuilder img => img
  end.

(** The reads that one layer of [img] costs, in the order the inner loop
    makes them. *)
Definition diff_id_calls (img : Image) (diff_id : DiffId) : list Call :=
  match _diff_id_to_digest img diff_id with
  | inr digest => [blob_call digest; json_loads_call (config_file img);
                   append_Layer_call diff_id]
  | inl _ => []
  end.


(** The exception that an image runs into before anything of it is
    appended, if any: the config, which is parsed when the diff identifiers
    are listed, then the digest lookup for the first layer visited, then its
    blob. Once the list is there the config parses again for the overrides. *)
Definition first_layer_error (img : Image) : option PyErr :=
  match listed_diff_ids img with
  | inl e => Some e
  | inr [] => None
  | inr (diff_id :: _) =>
      match _diff_id_to_digest img diff_id with
      | inl e => Some e
      | inr digest =>
          match blob img digest with
          | inl e => Some e
          | inr _ => None
          end
      end
  end.

(** Where the constructor takes the base image from. *)
Definition base_image_source (obj : Args) (base_name : Tag) : Image :=
  match tar_base_image_path obj with
  | Some p =>
      if str.truthy p then FromTarball p
      else FromRegistry base_name (Resolve base_name) {| size_ := _THREADS |}
  | None => FromRegistry base_name (Resolve base_name) {| size_ := _THREADS |}
  end.

(** The repository the cache is bound to. *)
Definition cache_repo_of (obj : Args) (target_image : Tag) : CacheRepo :=
  match cache_repository obj with
  | Some r =>
      if str.truthy r then RepoName r
      else RepoOf (as_repository target_image)
  | None => RepoOf (as_repository target_image)
  end.

(** Whether the constructor gets to its end on [obj]. *)
Definition constructor_returns (obj : Args) : bool :=
  negb (is_tokens (entrypoint obj)) && negb (is_tokens (exposed_ports obj))
  && match docker_name_Tag (base obj) with
     | inl _ => false
     | inr base_name =>
         is_ok (docker_name_Tag (name obj))
         && is_ok (image_enter (base_image_source obj base_name))
     end.

(** [sep.join(tokens)] for a one-character separator. *)
Fixpoint join (sep : ascii) (tokens : list string) : string :=
  match tokens with
  | [] => ""
  | [tok] => tok
  | tok :: rest => tok +:+ String sep (join sep rest)
  end.

(** How often a character occurs in a string. *)
Fixpoint count_char (c : ascii) (s : string) : nat :=
  match s with
  | EmptyString => 0
  | String c' s' => (if Ascii.eqb c' c then 1 else 0) + count_char c s'
  end.

(** A computation whose only effect on the state is to extend the trace of
    reads. *)
Definition traces_only {A} (m : M A) : Prop :=
  ∀ w, ∃ cs, (m w).2 = set_calls (calls w ++ cs) w.

(** [new] is [old] with [n] more layers on top: the digests of [old] come
    first, no blob of [old] is missing, and every added digest has a blob. *)
Definition grows_by (n : nat) (old new : Image) : Prop :=
  ∃ digests : list Digest,
    fs_layers new = fs_layers old ++ digests
    ∧ length digests = n
    ∧ (∀ digest, is_Some (blobs old !! digest) → is_Some (blobs new !! digest))
    ∧ Forall (λ digest, is_Some (blobs new !! digest)) digests.

(** The object the constructor builds once both references are parsed. *)
Definition constructed_object (ctx : Ctx) (namespace_ : string) (args : loc)
    (cache_version_str : string) (descriptor_files : list string)
    (obj : Args) (base_name target_image : Tag) : RuntimeBase :=
  {| _ctx := ctx;
     _namespace := namespace_;
     _args := args;
     _base_name := base_name;
     _base_creds := Resolve base_name;
     _target_image := target_image;
     _target_creds := Resolve target_image;
     _transport := {| size_ := _THREADS |};
     _base_image := base_image_source obj base_name;
     _cache := {| repo := cache_repo_of obj target_image;
                  namespace := namespace_;
                  base_image := base_image_source obj base_name;
                  creds := Resolve target_image;
                  transport := {| size_ := _THREADS |};
                  cache_version := cache_version_str;
                  threads := _THREADS;
                  mount := [base_name];
                  use_global := global_cache obj |};
     _descriptor_files := descriptor_files |}.

(** What the constructor ends in once the two fields are split. *)
Definition init_result (ctx : Ctx) (namespace_ : string) (args : loc)
    (cache_version_str : string) (descriptor_files : list string)
    (obj : Args) : result RuntimeBase :=
  match docker_name_Tag (base obj) with
  | inl e => inl e
  | inr base_name =>
      match docker_name_Tag (name obj) with
      | inl e => inl e
      | inr target_image =>
          match image_enter (base_image_source obj base_name) with
          | inl e => inl e
          | inr _ =>
              inr (constructed_object ctx namespace_ args cache_version_str
                     descriptor_files obj base_name target_image)
          end
      end
  end.

(** A non-empty string, the one value that the constructor splits. *)
Definition is_words (v : PyVal) : bool :=
  match v with
  | PyStr s => str.truthy s
  | PyNone | PyList _ => false
  end.

End Model.

(** ** A concrete set of collaborators and sample data

    References, credentials and config dictionaries are plain strings; the
    hash is symbolic (a prefix, hence without collisions); any non-empty
    text parses as JSON; the base image always opens. *)
Definition sample_lib : Collaborators := {|
  Ctx := unit;
  Tag := string;
  Repository := string;
  Creds := string;
  CfgDct := string;
  Overrides := string;
  docker_name_Tag := λ s, if str.truthy s then inr s else inl BadNameException;
  Tag_str := λ t, t;
  as_repository := λ t, t;
  Resolve := λ t, "creds of " +:+ t;
  json_loads := λ text, if str.truthy text then inr text else inl ValueError;
  CfgDctToOverrides := λ dct, dct;
  SHA256 := λ b, "sha256:" +:+ b;
  metadata_Override := λ cfg overrides, overrides;
  FromTarball := λ path,
    {| fs_layers := []; diff_ids := []; blobs := ∅; config_file := "{}" |};
  FromRegistry := λ t c tr,
    {| fs_layers := []; diff_ids := []; blobs := ∅; config_file := "{}" |};
  image_enter := λ _, inr ()
|}.

Definition empty_world : World (H := sample_lib) :=
  {| heap := ∅; files := ∅; pushes := []; log := []; calls := [] |}.

Definition img0 : Image :=
  image_of (H := sample_lib) [("d0", "blob0")] "{base}".
Definition img1 : Image :=
  image_of (H := sample_lib) [("d1", "blob1")] "{one}".
Definition img12 : Image :=
  image_of (H := sample_lib) [("d1", "blob1"); ("d2", "blob2")] "{one}".
Definition img3 : Image :=
  image_of (H := sample_lib) [("d3", "blob3")] "{two}".

(** Argument objects: one asking for a tarball and an upload, one for an
    upload only, one for neither, and one with stray spaces. *)
Definition sample_args : Args :=
  {| base := "gcr.io/base:latest"; name := "gcr.io/app:v1";
     entrypoint := PyStr "a b c"; exposed_ports := PyStr "80 443";
     tar_base_image_path := None; cache_repository := None;
     global_cache := false; output_path := Some "/tmp/out.tar";
     upload := true |}.

Definition upload_args : Args :=
  {| base := "gcr.io/base:latest"; name := "gcr.io/app:v1";
     entrypoint := PyNone; exposed_ports := PyStr "";
     tar_base_image_path := None; cache_repository := None;
     global_cache := false; output_path := None;
     upload := true |}.

Definition neither_args : Args :=
  {| base := "gcr.io/base:latest"; name := "gcr.io/app:v1";
     entrypoint := PyNone; exposed_ports := PyNone;
     tar_base_image_path := None; cache_repository := None;
     global_cache := false; output_path := Some "";
     upload := false |}.

Definition stray_args : Args :=
  {| base := "gcr.io/base:latest"; name := "gcr.io/app:v1";
     entrypoint := PyStr "a  b"; exposed_ports := PyStr " 80";
     tar_base_image_path := None; cache_repository := None;
     global_cache := false; output_path := None;
     upload := false |}.

(** A store that holds one argument object, at location 7. *)
Definition world_with (obj : Args) : World (H := sample_lib) :=
  {| heap := {[ 7 := obj ]}; files := ∅; pushes := []; log := []; calls := [] |}.

(** A builder whose [_args] is location 7. *)
Definition sample_self : RuntimeBase (H := sample_lib) :=
  @Build_RuntimeBase sample_lib
    () "python" 7
    "gcr.io/base:latest" "creds of gcr.io/base:latest"
    "gcr.io/app:v1" "creds of gcr.io/app:v1"
    {| size_ := 32 |}
    img0
    (@Build_CacheRegistry sample_lib
       (RepoOf (H := sample_lib) "gcr.io/app:v1") "python" img0
       "creds of gcr.io/app:v1" {| size_ := 32 |} "v1" 32
       ["gcr.io/base:latest"] false)
    ["requirements.txt"].

(** An element without layers, and an image that declares a layer it does
    not have. *)
Definition empty_img : Image := image_of (H := sample_lib) [] "{}".
Definition broken_img : Image :=
  {| fs_layers := []; diff_ids := ["dX"]; blobs := ∅; config_file := "{}" |}.

(** The composite of the three sample images, and the state it leaves. *)
Definition composed : result LyrImg * World (H := sample_lib) :=
  AppendLayersIntoImage (H := sample_lib)
    [DockerImage img0; LayerBuilder img12; LayerBuilder img3] empty_world.
Definition composed_image : LyrImg :=
  match composed.1 with inr r => r | inl _ => DockerImage img0 end.

(** An argument object whose base reference does not parse. *)
Definition bad_base_args : Args :=
  {| base := ""; name := "gcr.io/app:v1";
     entrypoint := PyStr "a b c"; exposed_ports := PyNone;
     tar_base_image_path := Some "/tmp/base.tar";
     cache_repository := Some "gcr.io/cache";
     global_cache := true; output_path := None;
     upload := true |}.

(** An argument object that takes the base from a tarball and names a cache
    repository. *)
Definition tarball_args : Args :=
  {| base := "gcr.io/base:latest"; name := "gcr.io/app:v1";
     entrypoint := PyStr "a b c"; exposed_ports := PyNone;
     tar_base_image_path := Some "/tmp/base.tar";
     cache_repository := Some "gcr.io/cache";
     global_cache := true; output_path := None;
     upload := true |}.

(** The constructor run on an argument object at location 7, and the object
    it returns. *)
Definition constructed (obj : Args) : result RuntimeBase * World (H := sample_lib) :=
  __init__ (H := sample_lib) () "python" 7 "v1" ["requirements.txt"]
    (world_with obj).
Definition constructed_self (obj : Args) : RuntimeBase (H := sample_lib) :=
  match (constructed obj).1 with inr self => self | inl _ => sample_self end.

(** * Properties *)

Section Properties.
Context `{!Collaborators}.

(** ** Splitting *)

Example split_abc : str.split "a b c" space = ["a"; "b"; "c"].
Proof. reflexivity. Qed.

Example split_empty : str.split "" space = [""].
Proof. reflexivity. Qed.

Example split_edges : str.split " a " space = [""; "a"; ""].
Proof. reflexivity. Qed.

Lemma split_nonempty s sep : str.split s sep ≠ [].
Proof.
  destruct s as [|c s]; simpl; [done|].
  destruct (Ascii.eqb c sep); [done|].
  by destruct (str.split s sep).
Qed.

(** Splitting distributes over a separator in the middle of the string. *)
Lemma split_app_sep s t sep :
  str.split (s +:+ String sep t) sep = str.split s sep ++ str.split t sep.
Proof.
  induction s as [|c s IH]; simpl.
  - by rewrite Ascii.eqb_refl.
  - destruct (Ascii.eqb c sep); [by rewrite IH|].
    rewrite IH. pose proof (split_nonempty s sep) as Hne.
    by destruct (str.split s sep).
Qed.

(** ** Running a computation *)

Lemma run_bind {A B} (m : M A) (f : A → M B) (w : World) :
  (m ≫= f) w = match m w with
               | (inr a, w') => f a w'
               | (inl e, w') => (inl e, w')
               end.
Proof. reflexivity. Qed.

Lemma run_ret {A} (a : A) (w : World) : (mret a : M A) w = (inr a, w).
Proof. reflexivity. Qed.

Lemma run_lift {A} (r : result A) (w : World) : lift r w = (r, w).
Proof. reflexivity. Qed.

(** ** Composition *)

(** One pass of the inner loop needs a bound accumulator that is an image,
    and leaves an image with one more diff identifier. *)
Lemma append_one_inv img diff_id result_image w r w' :
  append_one img diff_id result_image w = (inr r, w') →
  ∃ b b', result_image = Some (DockerImage b) ∧ r = Some (DockerImage b') ∧
          diff_ids b' = diff_ids b ++ [diff_id].
Proof.
  unfold append_one. rewrite !run_bind, run_lift.
  destruct (_diff_id_to_digest img diff_id) as [e|digest]; [done|].
  cbn -[blob json_loads append_Layer].
  destruct (blob img digest) as [e|lyr]; [done|].
  cbn -[json_loads append_Layer].
  destruct (json_loads (config_file img)) as [e|dct]; [done|].
  cbn -[append_Layer].
  destruct result_image as [[b|b]|]; cbn; [|done..].
  intros [= <- <-]. eauto.
Qed.

Lemma inner_loop_diff_ids img ds result_image w r w' :
  for_in ds (append_one img) result_image w = (inr r, w') →
  match result_image, r with
  | Some acc, Some acc' => own_diff_ids acc' = own_diff_ids acc ++ ds
  | None, None => ds = []
  | _, _ => False
  end.
Proof.
  revert result_image w. induction ds as [|d ds IH]; intros result_image w.
  - cbn. intros [= <- <-]. destruct result_image; [by rewrite app_nil_r|done].
  - cbn [for_in]. rewrite run_bind.
    destruct (append_one img d result_image w) as [[e|s'] w1] eqn:Hone; [done|].
    apply append_one_inv in Hone as (b & b' & -> & -> & Hb').
    intros Hrest. apply IH in Hrest. destruct r as [acc'|]; [|done].
    cbn in *. by rewrite Hrest, Hb', <- app_assoc.
Qed.

(** One pass of the outer loop over an element after the first: the image
    it hands out has its diff identifiers listed, which needs its config to
    parse, and the inner loop runs over them top layer first. *)
Lemma layer_pass_later i lyr_img result_image w :
  layer_pass (S i, lyr_img) result_image w
  = match lyr_img with
    | DockerImage _ => (inl AttributeError, w)
    | LayerBuilder img =>
        match json_loads (config_file img) with
        | inl e => (inl e, w)
        | inr _ => for_in (rev (diff_ids img)) (append_one img) result_image w
        end
    end.
Proof.
  unfold layer_pass. destruct (decide (S i = 0)) as [|_]; [lia|].
  rewrite run_bind, run_lift. destruct lyr_img as [img|img]; [done|].
  cbn [GetImage]. rewrite run_bind, run_lift. unfold listed_diff_ids.
  by destruct (json_loads (config_file img)).
Qed.

Lemma outer_loop_diff_ids i rest acc w r w' :
  for_in (enumerate_from (S i) rest) layer_pass (Some acc) w = (inr r, w') →
  ∃ acc', r = Some acc' ∧
          own_diff_ids acc' = own_diff_ids acc ++ concat (top_first <$> rest).
Proof.
  revert i acc w. induction rest as [|x rest IH]; intros i acc w.
  - cbn. intros [= <- <-]. exists acc. by rewrite app_nil_r.
  - cbn [enumerate_from for_in]. rewrite run_bind, layer_pass_later.
    destruct x as [img|img]; [done|].
    destruct (json_loads (config_file img)) as [e|dct]; [done|].
    destruct (for_in (rev (diff_ids img)) (append_one img) (Some acc) w)
      as [[e|s'] w1] eqn:Hinner; [done|].
    apply inner_loop_diff_ids in Hinner. destruct s' as [acc1|]; [|done].
    intros Hrest. apply IH in Hrest as (acc' & -> & Hacc').
    exists acc'. split; [done|].
    rewrite Hacc', Hinner. cbn. by rewrite <- app_assoc.
Qed.

(** Whenever composition of a non-empty sequence returns, the result stands
    for the diff identifiers of element 0 followed by those of the later
    elements, element by element, each listed top layer first. *)
Lemma AppendLayersIntoImage_returns_top_first first rest w r w' :
  AppendLayersIntoImage (first :: rest) w = (inr r, w') →
  own_diff_ids r = own_diff_ids first ++ concat (top_first <$> rest).
Proof.
  unfold AppendLayersIntoImage, enumerate. cbn [enumerate_from for_in].
  rewrite !run_bind. cbn [layer_pass]. rewrite decide_True by done.
  rewrite run_ret.
  destruct (for_in (enumerate_from 1 rest) layer_pass (Some first) w)
    as [[e|s'] w1] eqn:Hloop; [done|].
  apply outer_loop_diff_ids in Hloop as (acc' & -> & Hacc').
  cbn. by intros [= <- <-].
Qed.

(** With the blob found and the config parsed, one pass of the inner loop
    succeeds on an image accumulator. *)
Lemma append_one_ok img diff_id b w :
  match _diff_id_to_digest img diff_id with
  | inr digest => is_ok (blob img digest)
  | inl _ => false
  end = true →
  is_ok (json_loads (config_file img)) = true →
  ∃ b' w', append_one img diff_id (Some (DockerImage b)) w
           = (inr (Some (DockerImage b')), w').
Proof.
  intros Hblob Hcfg. unfold append_one. rewrite !run_bind, run_lift.
  destruct (_diff_id_to_digest img diff_id) as [e|digest]; [done|].
  cbn -[blob json_loads append_Layer].
  destruct (blob img digest) as [e|lyr]; [done|].
  cbn -[json_loads append_Layer].
  destruct (json_loads (config_file img)) as [e|dct]; [done|].
  cbn. eauto.
Qed.

Lemma inner_loop_total img ds b w :
  forallb (λ diff_id,
             match _diff_id_to_digest img diff_id with
             | inr digest => is_ok (blob img digest)
             | inl _ => false
             end) ds = true →
  match ds with
  | [] => true
  | _ :: _ => is_ok (json_loads (config_file img))
  end = true →
  ∃ b' w', for_in ds (append_one img) (Some (DockerImage b)) w
           = (inr (Some (DockerImage b')), w').
Proof.
  revert b w. induction ds as [|d ds IH]; intros b w Hblobs Hcfg.
  - cbn. eauto.
  - cbn [forallb] in Hblobs. apply andb_true_iff in Hblobs as [Hd Hds].
    destruct (append_one_ok img d b w Hd Hcfg) as (b1 & w1 & Hone).
    cbn [for_in]. rewrite run_bind, Hone.
    apply IH; [done|]. by destruct ds.
Qed.

Lemma forallb_rev {A} (f : A → bool) (l : list A) :
  forallb f (rev l) = forallb f l.
Proof.
  induction l as [|x l IH]; [done|]. cbn.
  rewrite forallb_app, IH. cbn. by rewrite andb_true_r, andb_comm.
Qed.

Lemma outer_loop_total i rest b w :
  forallb layer_ok rest = true →
  ∃ b' w', for_in (enumerate_from (S i) rest) layer_pass
             (Some (DockerImage b)) w
           = (inr (Some (DockerImage b')), w').
Proof.
  revert i b w. induction rest as [|x rest IH]; intros i b w Hok.
  - cbn. eauto.
  - cbn [forallb] in Hok. apply andb_true_iff in Hok as [Hx Hrest].
    destruct x as [img|img]; [done|].
    cbn [layer_ok] in Hx. apply andb_true_iff in Hx as [Hblobs Hcfg].
    rewrite <- forallb_rev in Hblobs.
    destruct (inner_loop_total img (rev (diff_ids img)) b w Hblobs)
      as (b1 & w1 & Hinner); [by destruct (rev (diff_ids img))|].
    cbn [enumerate_from for_in]. rewrite run_bind, layer_pass_later.
    destruct (json_loads (config_file img)) as [e|dct]; [done|].
    rewrite Hinner. by apply IH.
Qed.

Lemma AppendLayersIntoImage_total b rest w :
  forallb layer_ok rest = true →
  ∃ b' w', AppendLayersIntoImage (DockerImage b :: rest) w
           = (inr (DockerImage b'), w').
Proof.
  intros Hok. unfold AppendLayersIntoImage, enumerate.
  cbn [enumerate_from for_in]. rewrite !run_bind. cbn [layer_pass].
  rewrite decide_True by done. rewrite run_ret.
  destruct (outer_loop_total 0 rest b w Hok) as (b' & w' & ->).
  cbn. eauto.
Qed.




(** C5. On the empty sequence the loop never assigns [result_image], so
    the final read of it fails: the call raises and returns no image. *)
Theorem AppendLayersIntoImage_empty (w : World) :
  AppendLayersIntoImage [] w = (inl UnboundLocalError, w).
Proof. reflexivity. Qed.

(** C6. On a one-element sequence the element itself is returned, and the
    state is the one the call started in: nothing was appended, no config
    was parsed and no blob was read. *)
Theorem AppendLayersIntoImage_single (lyr_img : LyrImg) (w : World) :
  AppendLayersIntoImage [lyr_img] w = (inr lyr_img, w)
  ∧ calls (AppendLayersIntoImage [lyr_img] w).2 = calls w.
Proof. split; reflexivity. Qed.

(** An image of one layer can be consumed whenever its config parses. *)
Lemma layer_ok_one_layer diff_id lyr cfg :
  is_ok (json_loads cfg) = true →
  layer_ok (LayerBuilder (image_of [(diff_id, lyr)] cfg)) = true.
Proof.
  intros Hcfg. cbn [layer_ok image_of fmap list_fmap diff_ids fst forallb].
  unfold _diff_id_to_digest, blob. cbn. rewrite decide_True by done.
  by rewrite lookup_insert_eq.
Qed.

(** C8. Composition is not commutative: there are a base and two further
    layers such that swapping the two changes the composite, in its diff
    identifiers, hence as an image, and hence in any digest that identifies
    the layer sequence. The layers are images of one layer each over any
    config text that parses. *)
Theorem composition_not_commutative {D : Type} (digest : Image → D)
    (cfg : string) :
  is_ok (json_loads cfg) = true →
  (∀ a b, digest a = digest b → diff_ids a = diff_ids b) →
  ∃ (first : Image) (layers permuted : list LyrImg),
    1 < length layers ∧ layers ≡ₚ permuted ∧
    ∀ w, ∃ r r' w1 w2,
      AppendLayersIntoImage (DockerImage first :: layers) w
        = (inr (DockerImage r), w1) ∧
      AppendLayersIntoImage (DockerImage first :: permuted) w
        = (inr (DockerImage r'), w2) ∧
      diff_ids r ≠ diff_ids r' ∧ r ≠ r' ∧ digest r ≠ digest r'.
Proof.
  intros Hcfg Hdigest.
  set (x := LayerBuilder (image_of [("d1", "blob1")] cfg)).
  set (y := LayerBuilder (image_of [("d2", "blob2")] cfg)).
  set (first := image_of [("d0", "blob0")] cfg).
  exists first, [x; y], [y; x].
  split; [cbn; lia|]. split; [apply perm_swap|].
  intros w.
  assert (forallb layer_ok [x; y] = true) as Hxy.
  { cbn [forallb]. subst x y. by rewrite !layer_ok_one_layer. }
  assert (forallb layer_ok [y; x] = true) as Hyx.
  { cbn [forallb]. subst x y. by rewrite !layer_ok_one_layer. }
  destruct (AppendLayersIntoImage_total first _ w Hxy) as (r & w1 & Hr).
  destruct (AppendLayersIntoImage_total first _ w Hyx) as (r' & w2 & Hr').
  exists r, r', w1, w2. split; [done|]. split; [done|].
  apply AppendLayersIntoImage_returns_top_first in Hr, Hr'. cbn in Hr, Hr'.
  assert (diff_ids r ≠ diff_ids r') as Hne by (rewrite Hr, Hr'; done).
  split; [done|]. split.
  - intros ->. done.
  - intros Heq. by apply Hne, Hdigest.
Qed.

(** ** Storing *)

Lemma run_getattr {A} (a : loc) (field : Args → A) (w : World) (obj : Args) :
  heap w !! a = Some obj → getattr a field w = (inr (field obj), w).
Proof. intros Hobj. unfold getattr. by rewrite Hobj. Qed.

Lemma str_truthy_iff (s : string) : str.truthy s = true ↔ s ≠ "".
Proof. by destruct s. Qed.

(** C2. When [output_path] is set, whatever [upload] is, [StoreImage]
    returns after writing one file, at that path, that holds the target
    reference and the image; nothing is pushed. *)
Theorem StoreImage_output_path (self : RuntimeBase) (result_image : Image)
    (w : World) (obj : Args) (path : string) :
  heap w !! _args self = Some obj →
  output_path obj = Some path →
  path ≠ "" →
  ∃ w', StoreImage self result_image w = (inr (), w')
        ∧ files w' = <[path := {| tar_name := _target_image self;
                                  tar_image := result_image |}]> (files w)
        ∧ pushes w' = pushes w.
Proof.
  intros Hobj Hout Hpath. apply str_truthy_iff in Hpath.
  unfold StoreImage. rewrite run_bind, (run_getattr _ _ _ obj Hobj), Hout, Hpath.
  eexists. split; [reflexivity|]. by cbn.
Qed.

(** C3. When [upload] is set and [output_path] is not, [StoreImage] returns
    after one push of the image to the target reference, with the target's
    credentials and a mount list that holds the base reference; no file is
    written. *)
Theorem StoreImage_upload (self : RuntimeBase) (result_image : Image)
    (w : World) (obj : Args) :
  heap w !! _args self = Some obj →
  opt_truthy (output_path obj) = false →
  upload obj = true →
  ∃ w', StoreImage self result_image w = (inr (), w')
        ∧ pushes w' = pushes w ++ [ {| push_name := _target_image self;
                                       push_creds := _target_creds self;
                                       push_transport := _transport self;
                                       push_threads := _THREADS;
                                       push_mount := [_base_name self];
                                       push_image := result_image |} ]
        ∧ files w' = files w.
Proof.
  intros Hobj Hout Hup.
  assert (StoreImage self result_image w
          = after_output_path self result_image w) as ->.
  { unfold StoreImage. rewrite run_bind, (run_getattr _ _ _ obj Hobj).
    destruct (output_path obj) as [path|]; [|done].
    cbn in Hout. by rewrite Hout. }
  unfold after_output_path.
  rewrite run_bind, (run_getattr _ _ _ obj Hobj), Hup.
  eexists. split; [reflexivity|]. by cbn.
Qed.

(** C4. When neither [output_path] nor [upload] is set, [StoreImage]
    returns normally and leaves the state as it was: no file, no push, no
    log entry. *)
Theorem StoreImage_neither (self : RuntimeBase) (result_image : Image)
    (w : World) (obj : Args) :
  heap w !! _args self = Some obj →
  opt_truthy (output_path obj) = false →
  upload obj = false →
  StoreImage self result_image w = (inr (), w).
Proof.
  intros Hobj Hout Hup. unfold StoreImage.
  rewrite run_bind, (run_getattr _ _ _ obj Hobj).
  assert (after_output_path self result_image w = (inr (), w)) as Hafter.
  { unfold after_output_path.
    by rewrite run_bind, (run_getattr _ _ _ obj Hobj), Hup. }
  destruct (output_path obj) as [path|]; [|done].
  cbn in Hout. by rewrite Hout.
Qed.

(** ** Construction *)

Lemma stateless_ret {A} (a : A) : stateless (mret a : M A).
Proof. done. Qed.

Lemma stateless_lift {A} (r : result A) : stateless (lift r).
Proof. done. Qed.

Lemma stateless_getattr {A} (a : loc) (field : Args → A) :
  stateless (getattr a field).
Proof. intros w. unfold getattr. by destruct (heap w !! a). Qed.

Lemma stateless_bind {A B} (m : M A) (f : A → M B) :
  stateless m → (∀ a, stateless (f a)) → stateless (m ≫= f).
Proof.
  intros Hm Hf w. rewrite run_bind. specialize (Hm w).
  destruct (m w) as [[e|a] w']; cbn in Hm; subst w'; [done|]. apply Hf.
Qed.

Lemma final_bind {A B} (m : M A) (f : A → M B) (w : World) :
  ((m ≫= f) w).2 = match m w with
                   | (inr a, w') => (f a w').2
                   | (inl _, w') => w'
                   end.
Proof. rewrite run_bind. by destruct (m w) as [[e|a] w']. Qed.

Lemma run_setattr (a : loc) (assign : Args → Args) (w : World) (obj : Args) :
  heap w !! a = Some obj →
  setattr a assign w = (inr (), set_heap (<[a := assign obj]> (heap w)) w).
Proof. intros Hobj. unfold setattr. by rewrite Hobj. Qed.

Lemma set_fields_id (obj : Args) :
  set_exposed_ports (exposed_ports obj) (set_entrypoint (entrypoint obj) obj)
  = obj.
Proof. by destruct obj. Qed.

Lemma set_heap_id (w : World) : set_heap (heap w) w = w.
Proof. by destruct w. Qed.

Lemma init_unfold ctx ns args ver dfs :
  __init__ ctx ns args ver dfs
  = (v ← getattr args entrypoint;
     (if truthy v then
        tokens ← lift (split_method v);
        setattr args (set_entrypoint tokens)
      else mret ());;
     init_from_line_79 ctx ns args ver dfs).
Proof. reflexivity. Qed.

Ltac stateless_steps :=
  repeat first
    [ apply stateless_ret | apply stateless_lift | apply stateless_getattr
    | apply stateless_bind; [|intros ?] | progress cbv zeta ].

Lemma init_from_line_81_stateless ctx ns args ver dfs :
  stateless (init_from_line_81 ctx ns args ver dfs).
Proof. unfold init_from_line_81. stateless_steps. Qed.

(** Line 81 on only reads: when it returns, the object holds the caller's
    reference, the parsed references and the resolved credentials. *)
Lemma init_from_line_81_returns ctx ns args ver dfs w obj self w' :
  heap w !! args = Some obj →
  init_from_line_81 ctx ns args ver dfs w = (inr self, w') →
  w' = w ∧ _args self = args
  ∧ docker_name_Tag (base obj) = inr (_base_name self)
  ∧ docker_name_Tag (name obj) = inr (_target_image self)
  ∧ _target_creds self = Resolve (_target_image self).
Proof.
  intros Hobj. unfold init_from_line_81.
  rewrite run_bind, (run_getattr _ _ _ obj Hobj), run_bind, run_lift.
  destruct (docker_name_Tag (base obj)) as [e|base_name]; [done|].
  rewrite run_bind, (run_getattr _ _ _ obj Hobj), run_bind, run_lift.
  destruct (docker_name_Tag (name obj)) as [e|target_image]; [done|].
  rewrite run_bind, (run_getattr _ _ _ obj Hobj), run_bind, run_lift.
  match goal with |- context [image_enter ?i] => destruct (image_enter i) end;
    [done|].
  rewrite run_bind, (run_getattr _ _ _ obj Hobj).
  rewrite run_bind, (run_getattr _ _ _ obj Hobj), run_ret.
  intros [= <- <-]. done.
Qed.

Lemma init_from_line_79_final ctx ns args ver dfs w obj :
  heap w !! args = Some obj →
  (init_from_line_79 ctx ns args ver dfs w).2
  = set_heap (<[args := set_exposed_ports (split_field (exposed_ports obj)) obj]>
                (heap w)) w.
Proof.
  intros Hobj. unfold init_from_line_79.
  assert (set_heap (<[args := obj]> (heap w)) w = w) as Hsame.
  { rewrite insert_id by done. apply set_heap_id. }
  assert (set_exposed_ports (exposed_ports obj) obj = obj) as Hid
    by (by destruct obj).
  rewrite final_bind, (run_getattr _ _ _ obj Hobj), final_bind.
  destruct (exposed_ports obj) as [|[|c s]|[|t l]] eqn:Hports;
    cbn [truthy str.truthy split_method split_field];
    rewrite ?run_bind, ?run_lift, ?run_ret, ?(run_setattr _ _ _ obj Hobj),
      ?init_from_line_81_stateless;
    try done; by rewrite Hid, Hsame.
Qed.

(** The state after the constructor: the argument object is updated in the
    store, under the location the caller holds, and nothing else changes. *)
Lemma init_final_state ctx ns (args : loc) ver dfs (w : World) (obj : Args) :
  heap w !! args = Some obj →
  (__init__ ctx ns args ver dfs w).2
  = set_heap (<[args := constructed_args obj]> (heap w)) w.
Proof.
  intros Hobj. rewrite init_unfold.
  assert (set_heap (<[args := obj]> (heap w)) w = w) as Hsame.
  { rewrite insert_id by done. apply set_heap_id. }
  assert (set_entrypoint (entrypoint obj) obj = obj) as Hid
    by (by destruct obj).
  rewrite final_bind, (run_getattr _ _ _ obj Hobj), final_bind.
  unfold constructed_args.
  destruct (entrypoint obj) as [|[|c s]|[|t l]] eqn:Hep;
    cbn [truthy str.truthy split_method split_field is_tokens];
    rewrite ?run_bind, ?run_lift, ?run_ret, ?(run_setattr _ _ _ obj Hobj);
    try (rewrite Hid; by apply init_from_line_79_final);
    try done.
  set (obj1 := set_entrypoint (PyList (str.split (String c s) space)) obj).
  rewrite (init_from_line_79_final _ _ _ _ _ _ obj1)
    by (cbn; apply lookup_insert_eq).
  unfold set_heap; cbn. by rewrite insert_insert_eq.
Qed.

Lemma init_from_line_79_returns ctx ns args ver dfs w obj self w' :
  heap w !! args = Some obj →
  init_from_line_79 ctx ns args ver dfs w = (inr self, w') →
  constructed_for args obj self.
Proof.
  intros Hobj. unfold init_from_line_79.
  rewrite run_bind, (run_getattr _ _ _ obj Hobj), run_bind.
  destruct (exposed_ports obj) as [|[|c s]|[|t l]];
    cbn [truthy str.truthy split_method];
    rewrite ?run_bind, ?run_lift, ?run_ret, ?(run_setattr _ _ _ obj Hobj);
    try done;
    try (intros Hrun;
         by apply (init_from_line_81_returns _ _ _ _ _ _ obj) in Hrun as [_ ?]).
  intros Hrun.
  eapply init_from_line_81_returns in Hrun as [_ Hself];
    [|cbn; apply lookup_insert_eq].
  exact Hself.
Qed.

Lemma init_returns ctx ns args ver dfs w obj self w' :
  heap w !! args = Some obj →
  __init__ ctx ns args ver dfs w = (inr self, w') →
  constructed_for args obj self.
Proof.
  intros Hobj. rewrite init_unfold.
  rewrite run_bind, (run_getattr _ _ _ obj Hobj), run_bind.
  destruct (entrypoint obj) as [|[|c s]|[|t l]];
    cbn [truthy str.truthy split_method];
    rewrite ?run_bind, ?run_lift, ?run_ret, ?(run_setattr _ _ _ obj Hobj);
    try done;
    try (intros Hrun;
         by apply (init_from_line_79_returns _ _ _ _ _ _ obj) in Hrun).
  intros Hrun.
  eapply init_from_line_79_returns in Hrun; [|cbn; apply lookup_insert_eq].
  exact Hrun.
Qed.

Lemma constructed_args_lookup ctx ns (args : loc) ver dfs (w : World) obj :
  heap w !! args = Some obj →
  heap (__init__ ctx ns args ver dfs w).2 !! args = Some (constructed_args obj).
Proof.
  intros Hobj. rewrite (init_final_state _ _ _ _ _ _ obj Hobj). cbn.
  apply lookup_insert_eq.
Qed.

Lemma constructed_entrypoint obj s :
  entrypoint obj = PyStr s → s ≠ "" →
  entrypoint (constructed_args obj) = PyList (str.split s space).
Proof.
  intros Hep Hs%str_truthy_iff. unfold constructed_args.
  rewrite Hep. cbn. by rewrite Hs.
Qed.

Lemma constructed_exposed_ports obj s :
  exposed_ports obj = PyStr s → s ≠ "" → is_tokens (entrypoint obj) = false →
  exposed_ports (constructed_args obj) = PyList (str.split s space).
Proof.
  intros Hports Hs%str_truthy_iff Hep. unfold constructed_args.
  rewrite Hep, Hports. cbn. by rewrite Hs.
Qed.

(** C7. The constructor splits a non-empty entrypoint string on single
    spaces into its tokens, in order, and does the same to exposed_ports;
    an entrypoint (or exposed_ports) that is [None] or the empty string is
    left as it is, not turned into a list. *)
Theorem init_splits_fields ctx ns (args : loc) ver dfs (w : World)
    (obj : Args) :
  heap w !! args = Some obj →
  ∃ obj', heap (__init__ ctx ns args ver dfs w).2 !! args = Some obj'
    ∧ (∀ s, entrypoint obj = PyStr s → s ≠ "" →
            entrypoint obj' = PyList (str.split s space))
    ∧ (∀ s, exposed_ports obj = PyStr s → s ≠ "" →
            is_tokens (entrypoint obj) = false →
            exposed_ports obj' = PyList (str.split s space))
    ∧ (entrypoint obj = PyNone ∨ entrypoint obj = PyStr "" →
       entrypoint obj' = entrypoint obj)
    ∧ (exposed_ports obj = PyNone ∨ exposed_ports obj = PyStr "" →
       exposed_ports obj' = exposed_ports obj)
    ∧ str.split "a b c" space = ["a"; "b"; "c"].
Proof.
  intros Hobj. exists (constructed_args obj).
  split; [by apply constructed_args_lookup|].
  split; [apply constructed_entrypoint|].
  split; [apply constructed_exposed_ports|].
  unfold constructed_args.
  split; [|split; [|done]].
  - by intros [Hep|Hep]; rewrite Hep.
  - intros Hports. destruct (is_tokens (entrypoint obj)); [done|].
    by destruct Hports as [Hp|Hp]; rewrite Hp.
Qed.

(** C9. The constructor changes the caller's argument object in place: the
    store differs only at the location that was passed in, the object there
    has its non-empty entrypoint and exposed_ports strings replaced by
    their token lists and every other field as before, and the object that
    is returned refers to that same location. *)
Theorem init_mutates_args_in_place ctx ns (args : loc) ver dfs (w : World)
    (obj : Args) :
  heap w !! args = Some obj →
  ∃ obj',
    heap (__init__ ctx ns args ver dfs w).2 = <[args := obj']> (heap w)
    ∧ (∀ s, entrypoint obj = PyStr s → s ≠ "" →
            entrypoint obj' = PyList (str.split s space))
    ∧ (∀ s, exposed_ports obj = PyStr s → s ≠ "" →
            is_tokens (entrypoint obj) = false →
            exposed_ports obj' = PyList (str.split s space))
    ∧ (base obj' = base obj ∧ name obj' = name obj
       ∧ tar_base_image_path obj' = tar_base_image_path obj
       ∧ cache_repository obj' = cache_repository obj
       ∧ global_cache obj' = global_cache obj
       ∧ output_path obj' = output_path obj
       ∧ upload obj' = upload obj)
    ∧ (∀ self w', __init__ ctx ns args ver dfs w = (inr self, w') →
                  _args self = args ∧ heap w' !! _args self = Some obj').
Proof.
  intros Hobj. exists (constructed_args obj).
  split; [by rewrite (init_final_state _ _ _ _ _ _ obj Hobj)|].
  split; [apply constructed_entrypoint|].
  split; [apply constructed_exposed_ports|].
  split.
  - unfold constructed_args. by destruct (is_tokens (entrypoint obj)).
  - intros self w' Hrun.
    destruct (init_returns _ _ _ _ _ _ _ _ _ Hobj Hrun) as [Hargs _].
    split; [done|]. rewrite Hargs.
    pose proof (constructed_args_lookup ctx ns args ver dfs w obj Hobj) as Hl.
    by rewrite Hrun in Hl.
Qed.

Lemma stray_space_nonempty s : stray_space s → s ≠ "".
Proof. destruct 1 as [t|t|t u]; [done|by destruct t..]. Qed.

Lemma stray_space_empty_token s : stray_space s → "" ∈ str.split s space.
Proof.
  destruct 1 as [t|t|t u].
  - cbn. apply list_elem_of_here.
  - change (t +:+ " ") with (t +:+ String space "").
    rewrite split_app_sep. cbn. set_solver.
  - change (t +:+ "  " +:+ u) with (t +:+ String space (String space u)).
    rewrite split_app_sep. cbn. set_solver.
Qed.

(** C10. When the entrypoint (or exposed_ports) string has a leading, a
    trailing or two consecutive spaces, the token list that the constructor
    stores is the full split, and it holds an empty token; the entrypoint
    ["a  b"] gives ["a"; ""; "b"]. *)
Theorem init_keeps_empty_tokens ctx ns (args : loc) ver dfs (w : World)
    (obj : Args) (s : string) :
  heap w !! args = Some obj →
  stray_space s →
  "" ∈ str.split s space
  ∧ (∃ obj', heap (__init__ ctx ns args ver dfs w).2 !! args = Some obj'
       ∧ (entrypoint obj = PyStr s →
          entrypoint obj' = PyList (str.split s space))
       ∧ (exposed_ports obj = PyStr s → is_tokens (entrypoint obj) = false →
          exposed_ports obj' = PyList (str.split s space)))
  ∧ str.split "a  b" space = ["a"; ""; "b"].
Proof.
  intros Hobj Hs. split; [by apply stray_space_empty_token|].
  split; [|done].
  apply stray_space_nonempty in Hs as Hne.
  exists (constructed_args obj).
  split; [by apply constructed_args_lookup|].
  split.
  - intros Hep. by apply constructed_entrypoint.
  - intros Hports Hep. by apply constructed_exposed_ports.
Qed.

End Properties.

(** * Further properties *)

Section Further.
Context `{!Collaborators}.

(** ** Loops *)

Lemma for_in_app {A S} (xs ys : list A) (body : A → S → M S) (s : S)
    (w : World) :
  for_in (xs ++ ys) body s w = (s' ← for_in xs body s; for_in ys body s') w.
Proof.
  revert s w. induction xs as [|x xs IH]; intros s w; [done|].
  cbn [app for_in]. rewrite !run_bind.
  destruct (body x s w) as [[e|s1] w1]; [done|].
  by rewrite IH, run_bind.
Qed.

Lemma enumerate_from_app {A} (i : nat) (xs ys : list A) :
  enumerate_from i (xs ++ ys)
  = enumerate_from i xs ++ enumerate_from (i + length xs) ys.
Proof.
  revert i. induction xs as [|x xs IH]; intros i; cbn.
  - by rewrite Nat.add_0_r.
  - rewrite IH. do 3 f_equal. lia.
Qed.

(** After element 0 the index no longer matters. *)
Lemma later_index i rest result_image w :
  for_in (enumerate_from (S i) rest) layer_pass result_image w
  = for_in (enumerate_from 1 rest) layer_pass result_image w.
Proof.
  revert i result_image w.
  induction rest as [|x rest IH]; intros i result_image w; [done|].
  cbn [enumerate_from for_in]. rewrite !run_bind.
  assert (layer_pass (S i, x) result_image w = layer_pass (1, x) result_image w)
    as -> by done.
  destruct (layer_pass (1, x) result_image w) as [[e|s1] w1]; [done|].
  by rewrite (IH (S i)), (IH 1).
Qed.

(** The call on a non-empty sequence, as the loop over what follows
    element 0. *)
Lemma append_layers_run first rest w :
  AppendLayersIntoImage (first :: rest) w
  = match for_in (enumerate_from 1 rest) layer_pass (Some first) w with
    | (inr (Some r), w') => (inr r, w')
    | (inr None, w') => (inl UnboundLocalError, w')
    | (inl e, w') => (inl e, w')
    end.
Proof.
  unfold AppendLayersIntoImage, enumerate. cbn [enumerate_from for_in].
  rewrite !run_bind. cbn [layer_pass]. rewrite decide_True by done.
  rewrite run_ret.
  by destruct (for_in (enumerate_from 1 rest) layer_pass (Some first) w)
    as [[e|[r|]] w1].
Qed.

Lemma later_bound i rest acc w r w' :
  for_in (enumerate_from (S i) rest) layer_pass (Some acc) w = (inr r, w') →
  is_Some r.
Proof. intros Hrun. apply outer_loop_diff_ids in Hrun as (acc' & -> & _). eauto. Qed.

(** Composing a sequence is composing a prefix of it and then the rest onto
    the result. *)
Lemma append_layers_app first l1 l2 w :
  AppendLayersIntoImage (first :: l1 ++ l2) w
  = (r ← AppendLayersIntoImage (first :: l1);
     AppendLayersIntoImage (r :: l2)) w.
Proof.
  rewrite run_bind, !append_layers_run, enumerate_from_app, for_in_app, run_bind.
  destruct (for_in (enumerate_from 1 l1) layer_pass (Some first) w)
    as [[e|s1] w1] eqn:Hl1; [done|].
  destruct (later_bound _ _ _ _ _ _ Hl1) as [r ->].
  by rewrite append_layers_run, later_index.
Qed.

(** X1. Composing [first :: l1 ++ l2] is composing [first :: l1] and then
    composing [l2] onto the result; an exception in the first part is the
    exception of the whole. *)
Theorem AppendLayersIntoImage_app (first : LyrImg) (l1 l2 : list LyrImg)
    (w : World) :
  AppendLayersIntoImage (first :: l1 ++ l2) w
  = match AppendLayersIntoImage (first :: l1) w with
    | (inr r, w1) => AppendLayersIntoImage (r :: l2) w1
    | (inl e, w1) => (inl e, w1)
    end.
Proof. by rewrite append_layers_app, run_bind. Qed.

(** One pass of the outer loop over an element that hands out [img]. *)
Lemma layer_pass_builder i img result_image w :
  layer_pass (S i, LayerBuilder img) result_image w
  = match json_loads (config_file img) with
    | inl e => (inl e, w)
    | inr _ => for_in (rev (diff_ids img)) (append_one img) result_image w
    end.
Proof. by rewrite layer_pass_later. Qed.

(** X2. An element whose image has no layers and whose config parses is
    skipped: the result and the state are those of the sequence without
    it. (A config that does not parse makes the call raise instead.) *)
Theorem AppendLayersIntoImage_skips_empty (first : LyrImg)
    (l1 l2 : list LyrImg) (img : Image) (w : World) :
  diff_ids img = [] →
  is_ok (json_loads (config_file img)) = true →
  AppendLayersIntoImage (first :: l1 ++ LayerBuilder img :: l2) w
  = AppendLayersIntoImage (first :: l1 ++ l2) w.
Proof.
  intros Hempty Hcfg. rewrite !append_layers_app, !run_bind.
  destruct (AppendLayersIntoImage (first :: l1) w) as [[e|r] w1]; [done|].
  rewrite !append_layers_run. cbn [enumerate_from for_in].
  rewrite run_bind, layer_pass_builder, Hempty.
  destruct (json_loads (config_file img)) as [e|dct]; [done|]. cbn [rev for_in].
  by rewrite run_ret, later_index.
Qed.

(** X3. Only element 0 may be a bare image: a bare image after it makes
    the call raise as soon as the loop gets there, with the layers before it
    already composed. *)
Theorem AppendLayersIntoImage_later_bare_image (first : LyrImg)
    (l1 l2 : list LyrImg) (x : Image) (w : World) (r : LyrImg) (w1 : World) :
  AppendLayersIntoImage (first :: l1) w = (inr r, w1) →
  AppendLayersIntoImage (first :: l1 ++ DockerImage x :: l2) w
  = (inl AttributeError, w1).
Proof.
  intros Hl1. rewrite append_layers_app, run_bind, Hl1.
  by rewrite append_layers_run.
Qed.

(** X4. When an element cannot be read (a config that does not parse, or,
    for the first layer that is visited, no digest for its diff identifier
    or no blob for the digest), the call raises that exception, whatever
    follows the element. *)
Theorem AppendLayersIntoImage_first_layer_error (first : LyrImg)
    (l1 l2 : list LyrImg) (img : Image) (w : World) (r : LyrImg) (w1 : World)
    (e : PyErr) :
  AppendLayersIntoImage (first :: l1) w = (inr r, w1) →
  first_layer_error img = Some e →
  ∃ w2, AppendLayersIntoImage (first :: l1 ++ LayerBuilder img :: l2) w
        = (inl e, w2).
Proof.
  intros Hl1 Herr. rewrite append_layers_app, run_bind, Hl1.
  rewrite append_layers_run. cbn [enumerate_from for_in].
  rewrite run_bind, layer_pass_builder.
  unfold first_layer_error, listed_diff_ids in Herr.
  destruct (json_loads (config_file img)) as [e1|dct] eqn:Hcfg.
  { injection Herr as ->. eauto. }
  destruct (rev (diff_ids img)) as [|d ds]; [done|].
  cbn [for_in]. rewrite run_bind. unfold append_one.
  rewrite !run_bind, run_lift.
  destruct (_diff_id_to_digest img d) as [e1|digest].
  { injection Herr as ->. eauto. }
  cbn -[blob json_loads append_Layer].
  destruct (blob img digest) as [e1|lyr]; [|done].
  injection Herr as ->. eauto.
Qed.

(** ** The trace of reads *)

Lemma set_calls_nil (w : World) : set_calls (calls w ++ []) w = w.
Proof. destruct w. unfold set_calls. cbn. by rewrite app_nil_r. Qed.

Lemma set_calls_app (w : World) (cs1 cs2 : list Call) :
  set_calls (calls (set_calls (calls w ++ cs1) w) ++ cs2)
    (set_calls (calls w ++ cs1) w)
  = set_calls (calls w ++ (cs1 ++ cs2)) w.
Proof. unfold set_calls. cbn. by rewrite app_assoc. Qed.

Lemma traces_only_ret {A} (a : A) : traces_only (mret a : M A).
Proof. intros w. exists []. by rewrite set_calls_nil. Qed.

Lemma traces_only_lift {A} (r : result A) : traces_only (lift r).
Proof. intros w. exists []. by rewrite set_calls_nil. Qed.

Lemma traces_only_raise {A} (e : PyErr) : traces_only (raise e : M A).
Proof. intros w. exists []. by rewrite set_calls_nil. Qed.

Lemma traces_only_record_call (c : Call) : traces_only (record_call c).
Proof. intros w. by exists [c]. Qed.

Lemma traces_only_bind {A B} (m : M A) (f : A → M B) :
  traces_only m → (∀ a, traces_only (f a)) → traces_only (m ≫= f).
Proof.
  intros Hm Hf w. rewrite final_bind. destruct (Hm w) as [cs1 Hw1].
  destruct (m w) as [[e|a] w1]; cbn in Hw1; subst w1; [by exists cs1|].
  destruct (Hf a (set_calls (calls w ++ cs1) w)) as [cs2 ->].
  exists (cs1 ++ cs2). apply set_calls_app.
Qed.

Lemma traces_only_for_in {A S} (xs : list A) (body : A → S → M S) (s : S) :
  (∀ x s', traces_only (body x s')) → traces_only (for_in xs body s).
Proof.
  intros Hbody. revert s. induction xs as [|x xs IH]; intros s; cbn [for_in].
  - apply traces_only_ret.
  - apply traces_only_bind; [apply Hbody|apply IH].
Qed.

Lemma traces_only_read_local {A} (v : option A) : traces_only (read_local v).
Proof. destruct v; [apply traces_only_ret|apply traces_only_raise]. Qed.

Lemma traces_only_append_one img diff_id result_image :
  traces_only (append_one img diff_id result_image).
Proof.
  unfold append_one.
  repeat first
    [ apply traces_only_ret | apply traces_only_lift
    | apply traces_only_record_call | apply traces_only_read_local
    | apply traces_only_bind; [|intros ?] | progress cbv zeta ].
Qed.

Lemma traces_only_layer_pass item result_image :
  traces_only (layer_pass item result_image).
Proof.
  destruct item as [i lyr_img]. unfold layer_pass.
  destruct (decide (i = 0)); [apply traces_only_ret|].
  apply traces_only_bind; [apply traces_only_lift|intros img].
  apply traces_only_bind; [apply traces_only_lift|intros listed].
  apply traces_only_for_in. intros. apply traces_only_append_one.
Qed.

(** X5. Composition persists nothing: whether it returns or raises, on any
    input, the argument objects, the files, the pushes and the log are as
    before; the only thing that grows is the trace of reads. *)
Theorem AppendLayersIntoImage_reads_only (lyr_imgs : list LyrImg) (w : World) :
  ∃ cs, (AppendLayersIntoImage lyr_imgs w).2 = set_calls (calls w ++ cs) w.
Proof.
  revert w. change (traces_only (AppendLayersIntoImage lyr_imgs)).
  unfold AppendLayersIntoImage.
  apply traces_only_bind; [|intros; apply traces_only_read_local].
  apply traces_only_for_in. intros. apply traces_only_layer_pass.
Qed.

(** One pass of the inner loop that succeeds: what it read, and the image
    it made. *)
Lemma append_one_success img diff_id result_image w r w' :
  append_one img diff_id result_image w = (inr r, w') →
  ∃ b digest lyr dct,
    result_image = Some (DockerImage b)
    ∧ _diff_id_to_digest img diff_id = inr digest
    ∧ blob img digest = inr lyr
    ∧ json_loads (config_file img) = inr dct
    ∧ r = Some (DockerImage
                  {| fs_layers := fs_layers b ++ [SHA256 lyr];
                     diff_ids := diff_ids b ++ [diff_id];
                     blobs := <[SHA256 lyr := lyr]> (blobs b);
                     config_file := metadata_Override (config_file b)
                                      (CfgDctToOverrides dct) |})
    ∧ w' = set_calls (calls w ++ diff_id_calls img diff_id) w.
Proof.
  unfold append_one, diff_id_calls. rewrite !run_bind, run_lift.
  destruct (_diff_id_to_digest img diff_id) as [e|digest]; [done|].
  cbn -[blob json_loads append_Layer].
  destruct (blob img digest) as [e|lyr] eqn:Hblob; [done|].
  cbn -[json_loads append_Layer].
  destruct (json_loads (config_file img)) as [e|dct] eqn:Hcfg; [done|].
  cbn -[append_Layer].
  destruct result_image as [[b|b]|]; cbn; [|done..].
  intros [= <- <-]. exists b, digest, lyr, dct.
  do 5 (split; [done|]). unfold set_calls. cbn. by rewrite <- !app_assoc.
Qed.




(** ** The layers of the composite *)

Lemma grows_by_refl (a : Image) : grows_by 0 a a.
Proof. exists []. by rewrite app_nil_r. Qed.

Lemma grows_by_trans n m (a b c : Image) :
  grows_by n a b → grows_by m b c → grows_by (n + m) a c.
Proof.
  intros (ds1 & Hfs1 & Hlen1 & Hkeep1 & Hnew1) (ds2 & Hfs2 & Hlen2 & Hkeep2 & Hnew2).
  exists (ds1 ++ ds2). split; [by rewrite Hfs2, Hfs1, app_assoc|].
  split; [rewrite length_app; lia|]. split; [auto|].
  apply Forall_app. split; [|done].
  eapply Forall_impl; [exact Hnew1|]. auto.
Qed.

Lemma grows_by_append (b : Image) (lyr : Blob) (diff_id : DiffId) (cfg : string) :
  grows_by 1 b {| fs_layers := fs_layers b ++ [SHA256 lyr];
                  diff_ids := diff_ids b ++ [diff_id];
                  blobs := <[SHA256 lyr := lyr]> (blobs b);
                  config_file := cfg |}.
Proof.
  exists [SHA256 lyr]. cbn. split; [done|]. split; [done|]. split.
  - intros digest Hsome. rewrite lookup_insert_is_Some.
    destruct (decide (SHA256 lyr = digest)); auto.
  - apply Forall_singleton. by rewrite lookup_insert_eq.
Qed.

Lemma inner_loop_grows img ds acc w r w' :
  for_in ds (append_one img) (Some acc) w = (inr r, w') →
  ∃ acc', r = Some acc' ∧ grows_by (length ds) (the_image acc) (the_image acc').
Proof.
  revert acc w. induction ds as [|d ds IH]; intros acc w.
  - cbn. intros [= <- <-]. eauto using grows_by_refl.
  - cbn [for_in]. rewrite run_bind.
    destruct (append_one img d (Some acc) w) as [[e|s'] w1] eqn:Hone; [done|].
    apply append_one_success in Hone
      as (b & dg & lyr & dct & [= ->] & _ & _ & _ & -> & _).
    intros Hrest. apply IH in Hrest as (acc' & -> & Hgrow).
    exists acc'. split; [done|].
    change (length (d :: ds)) with (1 + length ds).
    eapply grows_by_trans; [|exact Hgrow]. apply grows_by_append.
Qed.

Lemma outer_loop_grows rest acc w r w' :
  for_in (enumerate_from 1 rest) layer_pass (Some acc) w = (inr r, w') →
  ∃ acc', r = Some acc'
          ∧ grows_by (length (concat (own_diff_ids <$> rest)))
              (the_image acc) (the_image acc').
Proof.
  revert acc w. induction rest as [|x rest IH]; intros acc w.
  - cbn. intros [= <- <-]. eauto using grows_by_refl.
  - cbn [enumerate_from for_in]. rewrite run_bind.
    destruct x as [img|img]; [done|]. rewrite layer_pass_builder.
    destruct (json_loads (config_file img)) as [e|dct]; [done|].
    destruct (for_in (rev (diff_ids img)) (append_one img) (Some acc) w)
      as [[e|s'] w1] eqn:Hinner; [done|].
    apply inner_loop_grows in Hinner as (acc1 & -> & Hgrow1).
    rewrite length_rev in Hgrow1.
    rewrite later_index. intros Hrest.
    apply IH in Hrest as (acc' & -> & Hgrow).
    exists acc'. split; [done|]. cbn. rewrite length_app.
    by eapply grows_by_trans.
Qed.

(** X7. Composition only adds on top: the composite lists the digests of
    element 0 first, then one more digest per diff identifier of the later
    elements; every blob of element 0 is still there, and every added
    digest has its blob in the composite. *)
Theorem AppendLayersIntoImage_grows (first : LyrImg) (rest : list LyrImg)
    (w : World) (r : LyrImg) (w' : World) :
  AppendLayersIntoImage (first :: rest) w = (inr r, w') →
  grows_by (length (concat (own_diff_ids <$> rest)))
    (the_image first) (the_image r).
Proof.
  rewrite append_layers_run.
  destruct (for_in (enumerate_from 1 rest) layer_pass (Some first) w)
    as [[e|[r1|]] w1] eqn:Hloop; [done| |done].
  intros [= <- <-].
  by apply outer_loop_grows in Hloop as (acc' & [= <-] & Hgrow).
Qed.

(** X8. If the digests and the diff identifiers of element 0 run in
    parallel, so do those of the composite. *)
Theorem AppendLayersIntoImage_keeps_parallel (first : LyrImg)
    (rest : list LyrImg) (w : World) (r : LyrImg) (w' : World) :
  length (fs_layers (the_image first)) = length (diff_ids (the_image first)) →
  AppendLayersIntoImage (first :: rest) w = (inr r, w') →
  length (fs_layers (the_image r)) = length (diff_ids (the_image r)).
Proof.
  intros Hpar Hrun.
  pose proof (AppendLayersIntoImage_returns_top_first _ _ _ _ _ Hrun) as Hids.
  rewrite append_layers_run in Hrun.
  destruct (for_in (enumerate_from 1 rest) layer_pass (Some first) w)
    as [[e|[r1|]] w1] eqn:Hloop; [done| |done].
  injection Hrun as <- <-.
  apply outer_loop_grows in Hloop as (acc' & [= <-] & (ds & Hfs & Hlen & _)).
  assert (∀ x, own_diff_ids x = diff_ids (the_image x)) as Hown
    by (by intros []).
  rewrite Hown, (Hown first) in Hids.
  assert (length (concat (top_first <$> rest))
          = length (concat (own_diff_ids <$> rest))) as Hsame.
  { clear. induction rest as [|x rest IH]; [done|]. cbn.
    unfold top_first at 1. by rewrite !length_app, IH, length_rev. }
  rewrite Hfs, Hids, !length_app. lia.
Qed.

(** ** The constructor, run to its end *)

Lemma init_from_line_81_run ctx ns args ver dfs w obj :
  heap w !! args = Some obj →
  init_from_line_81 ctx ns args ver dfs w
  = (init_result ctx ns args ver dfs obj, w).
Proof.
  intros Hobj. unfold init_from_line_81, init_result.
  rewrite run_bind, (run_getattr _ _ _ obj Hobj), run_bind, run_lift.
  destruct (docker_name_Tag (base obj)) as [e|base_name]; [done|].
  rewrite run_bind, (run_getattr _ _ _ obj Hobj), run_bind, run_lift.
  destruct (docker_name_Tag (name obj)) as [e|target_image]; [done|].
  rewrite run_bind, (run_getattr _ _ _ obj Hobj), run_bind, run_lift.
  fold (base_image_source obj base_name).
  destruct (image_enter (base_image_source obj base_name)) as [e|[]]; [done|].
  rewrite run_bind, (run_getattr _ _ _ obj Hobj).
  by rewrite run_bind, (run_getattr _ _ _ obj Hobj), run_ret.
Qed.

Lemma init_from_line_79_run ctx ns args ver dfs w obj :
  heap w !! args = Some obj →
  init_from_line_79 ctx ns args ver dfs w
  = (if is_tokens (exposed_ports obj) then inl AttributeError
     else init_result ctx ns args ver dfs obj,
     set_heap (<[args := set_exposed_ports (split_field (exposed_ports obj)) obj]>
                 (heap w)) w).
Proof.
  intros Hobj.
  pose proof (init_from_line_79_final ctx ns args ver dfs w obj Hobj) as Hfinal.
  destruct (init_from_line_79 ctx ns args ver dfs w) as [res w1] eqn:Hrun.
  cbn in Hfinal. subst w1. f_equal. revert Hrun.
  unfold init_from_line_79.
  rewrite run_bind, (run_getattr _ _ _ obj Hobj), run_bind.
  destruct (exposed_ports obj) as [|[|c s]|[|t l]] eqn:Hports;
    cbn [truthy str.truthy split_method is_tokens];
    rewrite ?run_bind, ?run_lift, ?run_ret, ?(run_setattr _ _ _ obj Hobj);
    try (rewrite (init_from_line_81_run _ _ _ _ _ _ obj Hobj); congruence);
    try congruence.
  erewrite init_from_line_81_run by (cbn; apply lookup_insert_eq).
  intros [= <-]. done.
Qed.

(** The constructor as a whole: it raises on a field that is already a token
    list, otherwise ends as [init_result] says; either way the argument
    object is left as [constructed_args] says. *)
Lemma init_run ctx ns args ver dfs w obj :
  heap w !! args = Some obj →
  __init__ ctx ns args ver dfs w
  = (if is_tokens (entrypoint obj) || is_tokens (exposed_ports obj)
     then inl AttributeError
     else init_result ctx ns args ver dfs obj,
     set_heap (<[args := constructed_args obj]> (heap w)) w).
Proof.
  intros Hobj.
  pose proof (init_final_state ctx ns args ver dfs w obj Hobj) as Hfinal.
  destruct (__init__ ctx ns args ver dfs w) as [res w1] eqn:Hrun.
  cbn in Hfinal. subst w1. f_equal. revert Hrun.
  rewrite init_unfold.
  rewrite run_bind, (run_getattr _ _ _ obj Hobj), run_bind.
  destruct (entrypoint obj) as [|[|c s]|[|t l]] eqn:Hep;
    cbn [truthy str.truthy split_method is_tokens orb];
    rewrite ?run_bind, ?run_lift, ?run_ret, ?(run_setattr _ _ _ obj Hobj);
    try (rewrite (init_from_line_79_run _ _ _ _ _ _ obj Hobj); congruence);
    try congruence.
  erewrite init_from_line_79_run by (cbn; apply lookup_insert_eq).
  intros [= <- _]. done.
Qed.

(** ** Storing, in full *)

Lemma store_archive_run (self : RuntimeBase) (img : Image) (w : World)
    (obj : Args) (path : string) :
  heap w !! _args self = Some obj →
  output_path obj = Some path → path ≠ "" →
  ∃ w', StoreImage self img w = (inr (), w')
        ∧ heap w' = heap w
        ∧ files w' = <[path := {| tar_name := _target_image self;
                                  tar_image := img |}]> (files w)
        ∧ pushes w' = pushes w
        ∧ log w' = log w ++ [Info (Tag_str (_target_image self)
                                   +:+ " tarball located at " +:+ path);
                             Timing "saving_tarball_image"]
        ∧ calls w' = calls w.
Proof.
  intros Hobj Hout Hpath%str_truthy_iff. unfold StoreImage.
  rewrite run_bind, (run_getattr _ _ _ obj Hobj), Hout, Hpath.
  eexists. split; [reflexivity|]. cbn. by rewrite <- app_assoc.
Qed.

Lemma store_upload_run (self : RuntimeBase) (img : Image) (w : World)
    (obj : Args) :
  heap w !! _args self = Some obj →
  opt_truthy (output_path obj) = false → upload obj = true →
  ∃ w', StoreImage self img w = (inr (), w')
        ∧ heap w' = heap w
        ∧ files w' = files w
        ∧ pushes w' = pushes w ++ [ {| push_name := _target_image self;
                                       push_creds := _target_creds self;
                                       push_transport := _transport self;
                                       push_threads := _THREADS;
                                       push_mount := [_base_name self];
                                       push_image := img |} ]
        ∧ log w' = log w ++ [Info "Pushing final image...";
                             Timing "pushing_image_to_docker_registry"]
        ∧ calls w' = calls w.
Proof.
  intros Hobj Hout Hup.
  assert (StoreImage self img w = after_output_path self img w) as ->.
  { unfold StoreImage. rewrite run_bind, (run_getattr _ _ _ obj Hobj).
    destruct (output_path obj) as [path|]; [|done].
    cbn in Hout. by rewrite Hout. }
  unfold after_output_path.
  rewrite run_bind, (run_getattr _ _ _ obj Hobj), Hup.
  eexists. split; [reflexivity|]. cbn. by rewrite <- app_assoc.
Qed.

Lemma store_neither_run (self : RuntimeBase) (img : Image) (w : World)
    (obj : Args) :
  heap w !! _args self = Some obj →
  opt_truthy (output_path obj) = false → upload obj = false →
  StoreImage self img w = (inr (), w).
Proof.
  intros Hobj Hout Hup. unfold StoreImage.
  rewrite run_bind, (run_getattr _ _ _ obj Hobj).
  assert (after_output_path self img w = (inr (), w)) as Hafter.
  { unfold after_output_path.
    by rewrite run_bind, (run_getattr _ _ _ obj Hobj), Hup. }
  destruct (output_path obj) as [path|]; [|done].
  cbn in Hout. by rewrite Hout.
Qed.

Lemma output_path_cases (obj : Args) :
  (∃ path, output_path obj = Some path ∧ path ≠ "")
  ∨ opt_truthy (output_path obj) = false.
Proof.
  destruct (output_path obj) as [[|c p]|]; cbn; eauto.
Qed.

(** X9. Whatever the configuration, [StoreImage] persists at most one
    artifact: the state it leaves never has both a file written and an image
    pushed, and the argument object is as before. *)
Theorem StoreImage_at_most_one (self : RuntimeBase) (img : Image) (w : World)
    (obj : Args) :
  heap w !! _args self = Some obj →
  heap (StoreImage self img w).2 = heap w
  ∧ (files (StoreImage self img w).2 = files w
     ∨ pushes (StoreImage self img w).2 = pushes w).
Proof.
  intros Hobj. destruct (output_path_cases obj) as [(path & Hout & Hpath)|Hout].
  - destruct (store_archive_run self img w obj path Hobj Hout Hpath)
      as (w' & -> & Hheap & Hfiles & Hpushes & _). auto.
  - destruct (upload obj) eqn:Hup.
    + destruct (store_upload_run self img w obj Hobj Hout Hup)
        as (w' & -> & Hheap & Hfiles & Hpushes & _). auto.
    + rewrite (store_neither_run self img w obj Hobj Hout Hup). auto.
Qed.

(** X10. Storing to a tarball twice keeps the second image only: the file
    at the path is replaced, every other file is as before, and nothing is
    pushed. *)
Theorem StoreImage_output_path_overwrites (self : RuntimeBase)
    (img1 img2 : Image) (w : World) (obj : Args) (path : string) :
  heap w !! _args self = Some obj →
  output_path obj = Some path → path ≠ "" →
  ∃ w1 w2, StoreImage self img1 w = (inr (), w1)
           ∧ StoreImage self img2 w1 = (inr (), w2)
           ∧ files w2 = <[path := {| tar_name := _target_image self;
                                     tar_image := img2 |}]> (files w)
           ∧ (∀ other, other ≠ path → files w2 !! other = files w !! other)
           ∧ pushes w2 = pushes w.
Proof.
  intros Hobj Hout Hpath.
  destruct (store_archive_run self img1 w obj path Hobj Hout Hpath)
    as (w1 & Hrun1 & Hheap1 & Hfiles1 & Hpushes1 & _).
  assert (heap w1 !! _args self = Some obj) as Hobj1 by (by rewrite Hheap1).
  destruct (store_archive_run self img2 w1 obj path Hobj1 Hout Hpath)
    as (w2 & Hrun2 & Hheap2 & Hfiles2 & Hpushes2 & _).
  exists w1, w2. split; [done|]. split; [done|].
  assert (files w2 = <[path := {| tar_name := _target_image self;
                                  tar_image := img2 |}]> (files w)) as Hfiles
    by (by rewrite Hfiles2, Hfiles1, insert_insert_eq).
  split; [done|]. split; [|congruence].
  intros other Hother. rewrite Hfiles. by apply lookup_insert_ne.
Qed.

(** X11. Uploading twice pushes twice: the second call does not notice the
    first, and both pushes carry the same target, credentials and mount. *)
Theorem StoreImage_upload_repeats (self : RuntimeBase) (img1 img2 : Image)
    (w : World) (obj : Args) :
  heap w !! _args self = Some obj →
  opt_truthy (output_path obj) = false → upload obj = true →
  ∃ w1 w2, StoreImage self img1 w = (inr (), w1)
           ∧ StoreImage self img2 w1 = (inr (), w2)
           ∧ push_image <$> pushes w2 = (push_image <$> pushes w) ++ [img1; img2]
           ∧ length (pushes w2) = S (S (length (pushes w)))
           ∧ files w2 = files w.
Proof.
  intros Hobj Hout Hup.
  destruct (store_upload_run self img1 w obj Hobj Hout Hup)
    as (w1 & Hrun1 & Hheap1 & Hfiles1 & Hpushes1 & _).
  assert (heap w1 !! _args self = Some obj) as Hobj1 by (by rewrite Hheap1).
  destruct (store_upload_run self img2 w1 obj Hobj1 Hout Hup)
    as (w2 & Hrun2 & Hheap2 & Hfiles2 & Hpushes2 & _).
  exists w1, w2. split; [done|]. split; [done|].
  rewrite Hpushes2, Hpushes1, <- app_assoc. cbn.
  split; [by rewrite fmap_app|]. split; [|congruence].
  rewrite length_app. cbn. lia.
Qed.

(** X12. What [StoreImage] logs: in tarball mode the line that names the
    target and the path, then the completion of the timed block; in upload
    mode the line that announces the push, then the completion; otherwise
    nothing. *)
Theorem StoreImage_log (self : RuntimeBase) (img : Image) (w : World)
    (obj : Args) :
  heap w !! _args self = Some obj →
  log (StoreImage self img w).2
  = log w ++
    match output_path obj with
    | Some (String c p) =>
        [Info (Tag_str (_target_image self) +:+ " tarball located at "
               +:+ String c p);
         Timing "saving_tarball_image"]
    | _ =>
        if upload obj
        then [Info "Pushing final image...";
              Timing "pushing_image_to_docker_registry"]
        else []
    end.
Proof.
  intros Hobj. destruct (output_path obj) as [[|c p]|] eqn:Hout.
  - destruct (upload obj) eqn:Hup.
    + destruct (store_upload_run self img w obj Hobj) as (w' & -> & _ & _ & _ & Hlog & _);
        [by rewrite Hout|done|done].
    + rewrite (store_neither_run self img w obj Hobj); [|by rewrite Hout|done].
      cbn. by rewrite app_nil_r.
  - destruct (store_archive_run self img w obj (String c p) Hobj Hout)
      as (w' & -> & _ & _ & _ & Hlog & _); done.
  - destruct (upload obj) eqn:Hup.
    + destruct (store_upload_run self img w obj Hobj) as (w' & -> & _ & _ & _ & Hlog & _);
        [by rewrite Hout|done|done].
    + rewrite (store_neither_run self img w obj Hobj); [|by rewrite Hout|done].
      cbn. by rewrite app_nil_r.
Qed.

(** ** The constructor: edge cases and the object it returns *)

Lemma split_field_tokens (v : PyVal) :
  is_words v = true → is_tokens (split_field v) = true.
Proof.
  destruct v as [|s|l]; [done| |done]. cbn. intros ->. cbn.
  pose proof (split_nonempty s space). by destruct (str.split s space).
Qed.

Lemma split_field_again (v : PyVal) : split_field (split_field v) = split_field v.
Proof.
  destruct v as [|s|l]; [done| |done]. cbn.
  destruct (str.truthy s) eqn:Hs; [done|]. cbn. by rewrite Hs.
Qed.

Lemma constructed_args_again (obj : Args) :
  constructed_args (constructed_args obj) = constructed_args obj.
Proof.
  unfold constructed_args at 2 3.
  destruct (is_tokens (entrypoint obj)) eqn:Hep.
  - unfold constructed_args. by rewrite Hep.
  - unfold constructed_args. cbn.
    destruct (is_tokens (split_field (entrypoint obj))); [done|].
    cbn. by rewrite !split_field_again.
Qed.

(** X13. The constructor cannot be run twice on one argument object: once
    it has split a non-empty entrypoint or exposed_ports string, a second
    construction from the same object raises [AttributeError], whatever its
    other arguments are, and changes nothing. *)
Theorem init_twice_raises ctx ns (args : loc) ver dfs ctx' ns' ver' dfs'
    (w : World) (obj : Args) :
  heap w !! args = Some obj →
  is_tokens (entrypoint obj) = false →
  is_words (entrypoint obj) || is_words (exposed_ports obj) = true →
  __init__ ctx' ns' args ver' dfs' (__init__ ctx ns args ver dfs w).2
  = (inl AttributeError, (__init__ ctx ns args ver dfs w).2).
Proof.
  intros Hobj Hep Hwords.
  rewrite (init_final_state _ _ _ _ _ _ obj Hobj).
  set (w1 := set_heap (<[args := constructed_args obj]> (heap w)) w).
  assert (heap w1 !! args = Some (constructed_args obj)) as Hobj1
    by (cbn; apply lookup_insert_eq).
  rewrite (init_run _ _ _ _ _ _ _ Hobj1), constructed_args_again.
  assert (set_heap (<[args := constructed_args obj]> (heap w1)) w1 = w1) as ->.
  { unfold w1, set_heap. cbn. by rewrite insert_insert_eq. }
  f_equal. unfold constructed_args. rewrite Hep. cbn.
  apply orb_true_iff in Hwords as [Hw|Hw].
  - by rewrite (split_field_tokens _ Hw).
  - rewrite (split_field_tokens _ Hw). by rewrite orb_true_r.
Qed.

(** X15. The constructor returns an object exactly when neither field is
    already a token list, both image references parse and the base image
    opens. *)
Theorem init_returns_iff ctx ns (args : loc) ver dfs (w : World) (obj : Args) :
  heap w !! args = Some obj →
  is_ok (__init__ ctx ns args ver dfs w).1 = constructor_returns obj.
Proof.
  intros Hobj. rewrite (init_run _ _ _ _ _ _ _ Hobj). cbn [fst].
  unfold constructor_returns, init_result.
  destruct (is_tokens (entrypoint obj)); [done|].
  destruct (is_tokens (exposed_ports obj)); [done|]. cbn.
  destruct (docker_name_Tag (base obj)) as [e|base_name]; [done|].
  destruct (docker_name_Tag (name obj)) as [e|target_image]; [done|]. cbn.
  by destruct (image_enter (base_image_source obj base_name)).
Qed.

(** What a returned object is. *)
Lemma init_returns_object ctx ns (args : loc) ver dfs (w : World) (obj : Args)
    (self : RuntimeBase) (w' : World) :
  heap w !! args = Some obj →
  __init__ ctx ns args ver dfs w = (inr self, w') →
  ∃ base_name target_image,
    docker_name_Tag (base obj) = inr base_name
    ∧ docker_name_Tag (name obj) = inr target_image
    ∧ image_enter (base_image_source obj base_name) = inr ()
    ∧ self = constructed_object ctx ns args ver dfs obj base_name target_image
    ∧ w' = set_heap (<[args := constructed_args obj]> (heap w)) w.
Proof.
  intros Hobj. rewrite (init_run _ _ _ _ _ _ _ Hobj).
  destruct (is_tokens (entrypoint obj) || is_tokens (exposed_ports obj));
    [done|].
  unfold init_result.
  destruct (docker_name_Tag (base obj)) as [e|base_name]; [done|].
  destruct (docker_name_Tag (name obj)) as [e|target_image]; [done|].
  destruct (image_enter (base_image_source obj base_name)) as [e|[]] eqn:Henter;
    [done|].
  intros [= <- <-]. eauto 10.
Qed.

(** X16. The base image of a returned object comes from the tarball when
    [tar_base_image_path] is a non-empty string, and otherwise from the
    registry, under the base reference, its credentials and the object's
    transport; it has been opened, and the cache is bound to the same
    image. *)
Theorem init_base_image ctx ns (args : loc) ver dfs (w : World) (obj : Args)
    (self : RuntimeBase) (w' : World) :
  heap w !! args = Some obj →
  __init__ ctx ns args ver dfs w = (inr self, w') →
  (∀ p, tar_base_image_path obj = Some p → p ≠ "" →
        _base_image self = FromTarball p)
  ∧ (opt_truthy (tar_base_image_path obj) = false →
     _base_image self
     = FromRegistry (_base_name self) (_base_creds self) (_transport self))
  ∧ docker_name_Tag (base obj) = inr (_base_name self)
  ∧ _base_creds self = Resolve (_base_name self)
  ∧ image_enter (_base_image self) = inr ()
  ∧ base_image (_cache self) = _base_image self.
Proof.
  intros Hobj Hrun.
  destruct (init_returns_object _ _ _ _ _ _ _ _ _ Hobj Hrun)
    as (bn & t & Hbn & Ht & Henter & -> & _).
  cbn. unfold base_image_source in *.
  split; [|split; [|done]].
  - intros p -> Hp%str_truthy_iff. by rewrite Hp.
  - destruct (tar_base_image_path obj) as [p|]; [|done].
    cbn. by intros ->.
Qed.

(** X17. The cache of a returned object is bound to the configured cache
    repository, or to the repository of the target when none is configured;
    it uses the target's credentials, the object's transport, the given
    namespace and version, 32 threads, the base reference as mount and the
    global-cache flag of the arguments. *)
Theorem init_cache ctx ns (args : loc) ver dfs (w : World) (obj : Args)
    (self : RuntimeBase) (w' : World) :
  heap w !! args = Some obj →
  __init__ ctx ns args ver dfs w = (inr self, w') →
  (∀ r, cache_repository obj = Some r → r ≠ "" →
        repo (_cache self) = RepoName r)
  ∧ (opt_truthy (cache_repository obj) = false →
     repo (_cache self) = RepoOf (as_repository (_target_image self)))
  ∧ creds (_cache self) = Resolve (_target_image self)
  ∧ docker_name_Tag (name obj) = inr (_target_image self)
  ∧ transport (_cache self) = _transport self
  ∧ namespace (_cache self) = ns
  ∧ cache_version (_cache self) = ver
  ∧ threads (_cache self) = 32
  ∧ mount (_cache self) = [_base_name self]
  ∧ use_global (_cache self) = global_cache obj.
Proof.
  intros Hobj Hrun.
  destruct (init_returns_object _ _ _ _ _ _ _ _ _ Hobj Hrun)
    as (bn & t & Hbn & Ht & Henter & -> & _).
  cbn. unfold cache_repo_of.
  split; [|split; [|done]].
  - intros r -> Hr%str_truthy_iff. by rewrite Hr.
  - destruct (cache_repository obj) as [r|]; [|done].
    cbn. by intros ->.
Qed.

(** X18. A reference that does not parse makes the constructor fail with
    the parser's exception, the base reference being parsed first; by then
    the argument object has already been changed. *)
Theorem init_bad_reference ctx ns (args : loc) ver dfs (w : World) (obj : Args)
    (e : PyErr) :
  heap w !! args = Some obj →
  is_tokens (entrypoint obj) = false →
  is_tokens (exposed_ports obj) = false →
  docker_name_Tag (base obj) = inl e
  ∨ is_ok (docker_name_Tag (base obj)) = true
    ∧ docker_name_Tag (name obj) = inl e →
  __init__ ctx ns args ver dfs w
  = (inl e, set_heap (<[args := constructed_args obj]> (heap w)) w).
Proof.
  intros Hobj Hep Hports Hbad.
  rewrite (init_run _ _ _ _ _ _ _ Hobj), Hep, Hports. cbn. f_equal.
  unfold init_result. destruct Hbad as [->|[Hbase ->]]; [done|].
  by destruct (docker_name_Tag (base obj)).
Qed.

(** X19. Construct, then store to a tarball: the file at [output_path]
    holds the parsed target reference and the image, while no push happens;
    the split of the fields does not get in the way. *)
Theorem init_then_store_tarball ctx ns (args : loc) ver dfs (w : World)
    (obj : Args) (self : RuntimeBase) (w1 : World) (img : Image)
    (path : string) :
  heap w !! args = Some obj →
  __init__ ctx ns args ver dfs w = (inr self, w1) →
  output_path obj = Some path → path ≠ "" →
  ∃ target_image w2,
    docker_name_Tag (name obj) = inr target_image
    ∧ StoreImage self img w1 = (inr (), w2)
    ∧ files w2 = <[path := {| tar_name := target_image; tar_image := img |}]>
                   (files w)
    ∧ pushes w2 = pushes w.
Proof.
  intros Hobj Hrun Hout Hpath.
  destruct (init_returns_object _ _ _ _ _ _ _ _ _ Hobj Hrun)
    as (bn & t & Hbn & Ht & Henter & -> & ->).
  set (self := constructed_object ctx ns args ver dfs obj bn t).
  set (w1 := set_heap (<[args := constructed_args obj]> (heap w)) w).
  assert (heap w1 !! _args self = Some (constructed_args obj)) as Hobj1
    by (cbn; apply lookup_insert_eq).
  assert (output_path (constructed_args obj) = Some path) as Hout1.
  { unfold constructed_args. by destruct (is_tokens (entrypoint obj)). }
  destruct (store_archive_run self img w1 _ path Hobj1 Hout1 Hpath)
    as (w2 & Hstore & _ & Hfiles & Hpushes & _).
  exists t, w2. by repeat split.
Qed.

(** X20. Construct, then upload: one push goes to the parsed target
    reference with the credentials resolved for it, over the 32-wide
    transport, with the parsed base reference as mount; no file is
    written. *)
Theorem init_then_upload ctx ns (args : loc) ver dfs (w : World)
    (obj : Args) (self : RuntimeBase) (w1 : World) (img : Image) :
  heap w !! args = Some obj →
  __init__ ctx ns args ver dfs w = (inr self, w1) →
  opt_truthy (output_path obj) = false → upload obj = true →
  ∃ base_name target_image w2,
    docker_name_Tag (base obj) = inr base_name
    ∧ docker_name_Tag (name obj) = inr target_image
    ∧ StoreImage self img w1 = (inr (), w2)
    ∧ pushes w2 = pushes w ++ [ {| push_name := target_image;
                                   push_creds := Resolve target_image;
                                   push_transport := {| size_ := 32 |};
                                   push_threads := 32;
                                   push_mount := [base_name];
                                   push_image := img |} ]
    ∧ files w2 = files w.
Proof.
  intros Hobj Hrun Hout Hup.
  destruct (init_returns_object _ _ _ _ _ _ _ _ _ Hobj Hrun)
    as (bn & t & Hbn & Ht & Henter & -> & ->).
  set (self := constructed_object ctx ns args ver dfs obj bn t).
  set (w1 := set_heap (<[args := constructed_args obj]> (heap w)) w).
  assert (heap w1 !! _args self = Some (constructed_args obj)) as Hobj1
    by (cbn; apply lookup_insert_eq).
  assert (output_path (constructed_args obj) = output_path obj
          ∧ upload (constructed_args obj) = upload obj) as [Hout1 Hup1].
  { unfold constructed_args. by destruct (is_tokens (entrypoint obj)). }
  rewrite <- Hout1 in Hout. rewrite <- Hup1 in Hup.
  destruct (store_upload_run self img w1 _ Hobj1 Hout Hup)
    as (w2 & Hstore & _ & Hfiles & Hpushes & _).
  exists bn, t, w2. by repeat split.
Qed.

(** ** The split, as a whole *)

Lemma join_cons_char (sep c : ascii) (tok : string) (toks : list string) :
  join sep (String c tok :: toks) = String c (join sep (tok :: toks)).
Proof. by destruct toks. Qed.

(** X21. The split loses nothing: joining the tokens with the separator
    gives the string back, so [" ".join(args.entrypoint)] after construction
    is the entrypoint string from before. *)
Theorem split_join (s : string) (sep : ascii) :
  join sep (str.split s sep) = s.
Proof.
  induction s as [|c s IH]; [done|]. cbn [str.split].
  pose proof (split_nonempty s sep) as Hne.
  destruct (Ascii.eqb c sep) eqn:Hc.
  - apply Ascii.eqb_eq in Hc as ->.
    destruct (str.split s sep) as [|tok toks]; [done|].
    cbn [join]. by rewrite <- IH.
  - destruct (str.split s sep) as [|tok toks]; [done|].
    by rewrite join_cons_char, IH.
Qed.

(** X22. The split of a string has one token more than the string has
    separators, and no token contains the separator. *)
Theorem split_tokens (s : string) (sep : ascii) :
  length (str.split s sep) = S (count_char sep s)
  ∧ Forall (λ tok, count_char sep tok = 0) (str.split s sep).
Proof.
  induction s as [|c s [IHlen IHall]]; [by repeat constructor|].
  cbn [str.split count_char].
  pose proof (split_nonempty s sep) as Hne.
  destruct (Ascii.eqb c sep) eqn:Hc.
  - split; [cbn; by rewrite IHlen|]. by constructor.
  - destruct (str.split s sep) as [|tok toks]; [done|].
    split; [exact IHlen|].
    apply Forall_cons in IHall as [Htok Htoks].
    constructor; [|done]. cbn. by rewrite Hc.
Qed.

Lemma split_no_sep (tok : string) (sep : ascii) :
  count_char sep tok = 0 → str.split tok sep = [tok].
Proof.
  induction tok as [|c tok IH]; [done|]. cbn.
  destruct (Ascii.eqb c sep); [done|]. cbn. intros Htok. by rewrite IH.
Qed.

(** X23. Conversely, splitting the join of a non-empty list of tokens that
    contain no separator gives the tokens back: the split is the inverse of
    the join exactly on such lists. *)
Theorem join_split (tokens : list string) (sep : ascii) :
  tokens ≠ [] →
  Forall (λ tok, count_char sep tok = 0) tokens →
  str.split (join sep tokens) sep = tokens.
Proof.
  intros Hne Hall. induction Hall as [|tok toks Htok Htoks IH]; [done|].
  destruct toks as [|tok' toks].
  - cbn. by apply split_no_sep.
  - change (join sep (tok :: tok' :: toks))
      with (tok +:+ String sep (join sep (tok' :: toks))).
    rewrite split_app_sep, IH by done. by rewrite split_no_sep.
Qed.

End Further.

(** * The theorems on the sample data *)



Lemma composition_not_commutative_sample :
  ∃ (first : Image) (layers permuted : list LyrImg),
    1 < length layers ∧ layers ≡ₚ permuted ∧
    ∀ w, ∃ r r' w1 w2,
      AppendLayersIntoImage (H := sample_lib) (DockerImage first :: layers) w
        = (inr (DockerImage r), w1) ∧
      AppendLayersIntoImage (H := sample_lib) (DockerImage first :: permuted) w
        = (inr (DockerImage r'), w2) ∧
      diff_ids r ≠ diff_ids r' ∧ r ≠ r' ∧ diff_ids r ≠ diff_ids r'.
Proof.
  apply (composition_not_commutative (H := sample_lib) diff_ids "{}").
  - reflexivity.
  - intros a b Heq. exact Heq.
Defined.

Lemma StoreImage_output_path_sample :
  ∃ w', StoreImage sample_self img3 (world_with sample_args) = (inr (), w')
        ∧ files w' = <["/tmp/out.tar" := {| tar_name := _target_image sample_self;
                                            tar_image := img3 |}]> ∅
        ∧ pushes w' = [].
Proof.
  apply (StoreImage_output_path (H := sample_lib) sample_self img3
           (world_with sample_args) sample_args "/tmp/out.tar").
  - reflexivity.
  - reflexivity.
  - discriminate.
Defined.

Lemma StoreImage_upload_sample :
  ∃ w', StoreImage sample_self img3 (world_with upload_args) = (inr (), w')
        ∧ pushes w' = [ @Build_PushRecord sample_lib
                          "gcr.io/app:v1" "creds of gcr.io/app:v1"
                          {| size_ := 32 |} 32 ["gcr.io/base:latest"] img3 ]
        ∧ files w' = ∅.
Proof.
  apply (StoreImage_upload (H := sample_lib) sample_self img3
           (world_with upload_args) upload_args); reflexivity.
Defined.

Lemma StoreImage_neither_sample :
  StoreImage sample_self img3 (world_with neither_args)
  = (inr (), world_with neither_args).
Proof.
  apply (StoreImage_neither (H := sample_lib) sample_self img3
           (world_with neither_args) neither_args); reflexivity.
Defined.

Lemma init_splits_fields_sample :
  ∃ obj',
    heap (__init__ (H := sample_lib) () "python" 7 "v1" ["requirements.txt"]
            (world_with sample_args)).2 !! 7 = Some obj'
    ∧ entrypoint obj' = PyList ["a"; "b"; "c"]
    ∧ exposed_ports obj' = PyList ["80"; "443"].
Proof.
  destruct (init_splits_fields (H := sample_lib) () "python" 7 "v1"
              ["requirements.txt"] (world_with sample_args) sample_args
              eq_refl) as (obj' & Hobj' & Hep & Hports & _).
  exists obj'. split; [exact Hobj'|]. split.
  - apply (Hep "a b c"); [reflexivity|discriminate].
  - apply (Hports "80 443"); [reflexivity|discriminate|reflexivity].
Defined.

Lemma init_mutates_args_in_place_sample :
  ∃ obj',
    heap (__init__ (H := sample_lib) () "python" 7 "v1" ["requirements.txt"]
            (world_with sample_args)).2 = {[ 7 := obj' ]}
    ∧ entrypoint obj' = PyList ["a"; "b"; "c"]
    ∧ output_path obj' = Some "/tmp/out.tar"
    ∧ ∃ self w',
        __init__ (H := sample_lib) () "python" 7 "v1" ["requirements.txt"]
          (world_with sample_args) = (inr self, w')
        ∧ heap w' !! _args self = Some obj'.
Proof.
  destruct (init_mutates_args_in_place (H := sample_lib) () "python" 7 "v1"
              ["requirements.txt"] (world_with sample_args) sample_args
              eq_refl) as (obj' & Hheap & Hep & _ & Hframe & Halias).
  exists obj'. split; [|split; [|split]].
  - rewrite Hheap. apply insert_singleton_eq.
  - apply (Hep "a b c"); [reflexivity|discriminate].
  - apply Hframe.
  - eexists _, _. split; [vm_compute; reflexivity|].
    eapply Halias. vm_compute. reflexivity.
Defined.

Lemma init_keeps_empty_tokens_sample :
  "" ∈ str.split "a  b" space
  ∧ ∃ obj',
      heap (__init__ (H := sample_lib) () "python" 7 "v1" ["requirements.txt"]
              (world_with stray_args)).2 !! 7 = Some obj'
      ∧ entrypoint obj' = PyList ["a"; ""; "b"].
Proof.
  destruct (init_keeps_empty_tokens (H := sample_lib) () "python" 7 "v1"
              ["requirements.txt"] (world_with stray_args) stray_args "a  b"
              eq_refl (consecutive_spaces "a" "b"))
    as (Hin & (obj' & Hobj' & Hep & _) & _).
  split; [exact Hin|]. exists obj'. split; [exact Hobj'|].
  apply Hep. reflexivity.
Defined.

(** * The further properties on the sample data *)

Lemma AppendLayersIntoImage_skips_empty_sample :
  AppendLayersIntoImage (H := sample_lib)
    [DockerImage img0; LayerBuilder empty_img; LayerBuilder img3] empty_world
  = AppendLayersIntoImage (H := sample_lib)
      [DockerImage img0; LayerBuilder img3] empty_world.
Proof.
  apply (AppendLayersIntoImage_skips_empty (H := sample_lib)
           (DockerImage img0) [] [LayerBuilder img3] empty_img empty_world);
    reflexivity.
Defined.

Lemma AppendLayersIntoImage_later_bare_image_sample :
  AppendLayersIntoImage (H := sample_lib)
    [DockerImage img0; DockerImage img3; LayerBuilder img12] empty_world
  = (inl AttributeError, empty_world).
Proof.
  apply (AppendLayersIntoImage_later_bare_image (H := sample_lib)
           (DockerImage img0) [] [LayerBuilder img12] img3 empty_world
           (DockerImage img0) empty_world).
  reflexivity.
Defined.

Lemma AppendLayersIntoImage_first_layer_error_sample :
  ∃ w2, AppendLayersIntoImage (H := sample_lib)
          [DockerImage img0; LayerBuilder broken_img; LayerBuilder img3]
          empty_world
        = (inl ValueError, w2).
Proof.
  apply (AppendLayersIntoImage_first_layer_error (H := sample_lib)
           (DockerImage img0) [] [LayerBuilder img3] broken_img empty_world
           (DockerImage img0) empty_world ValueError); reflexivity.
Defined.


Lemma AppendLayersIntoImage_grows_sample :
  grows_by 3 img0 (the_image composed_image).
Proof.
  apply (AppendLayersIntoImage_grows (H := sample_lib) (DockerImage img0)
           [LayerBuilder img12; LayerBuilder img3] empty_world
           composed_image composed.2).
  vm_compute. reflexivity.
Defined.

Lemma AppendLayersIntoImage_keeps_parallel_sample :
  length (fs_layers (the_image composed_image))
  = length (diff_ids (the_image composed_image)).
Proof.
  apply (AppendLayersIntoImage_keeps_parallel (H := sample_lib)
           (DockerImage img0) [LayerBuilder img12; LayerBuilder img3]
           empty_world composed_image composed.2).
  - reflexivity.
  - vm_compute. reflexivity.
Defined.

Lemma StoreImage_at_most_one_sample :
  heap (StoreImage sample_self img3 (world_with sample_args)).2
  = heap (world_with sample_args)
  ∧ (files (StoreImage sample_self img3 (world_with sample_args)).2 = ∅
     ∨ pushes (StoreImage sample_self img3 (world_with sample_args)).2 = []).
Proof.
  apply (StoreImage_at_most_one (H := sample_lib) sample_self img3
           (world_with sample_args) sample_args).
  reflexivity.
Defined.

Lemma StoreImage_output_path_overwrites_sample :
  ∃ w1 w2,
    StoreImage sample_self img12 (world_with sample_args) = (inr (), w1)
    ∧ StoreImage sample_self img3 w1 = (inr (), w2)
    ∧ files w2 = <["/tmp/out.tar" := {| tar_name := _target_image sample_self;
                                        tar_image := img3 |}]> ∅
    ∧ (∀ other, other ≠ "/tmp/out.tar" →
         files w2 !! other = files (world_with sample_args) !! other)
    ∧ pushes w2 = [].
Proof.
  apply (StoreImage_output_path_overwrites (H := sample_lib) sample_self
           img12 img3 (world_with sample_args) sample_args "/tmp/out.tar").
  - reflexivity.
  - reflexivity.
  - discriminate.
Defined.

Lemma StoreImage_upload_repeats_sample :
  ∃ w1 w2,
    StoreImage sample_self img12 (world_with upload_args) = (inr (), w1)
    ∧ StoreImage sample_self img3 w1 = (inr (), w2)
    ∧ push_image <$> pushes w2 = [img12; img3]
    ∧ length (pushes w2) = 2
    ∧ files w2 = ∅.
Proof.
  apply (StoreImage_upload_repeats (H := sample_lib) sample_self img12 img3
           (world_with upload_args) upload_args); reflexivity.
Defined.

Lemma StoreImage_log_sample :
  log (StoreImage sample_self img3 (world_with sample_args)).2
  = [Info "gcr.io/app:v1 tarball located at /tmp/out.tar";
     Timing "saving_tarball_image"].
Proof.
  apply (StoreImage_log (H := sample_lib) sample_self img3
           (world_with sample_args) sample_args).
  reflexivity.
Defined.

Lemma init_twice_raises_sample :
  __init__ (H := sample_lib) () "other" 7 "v2" [] (constructed sample_args).2
  = (inl AttributeError, (constructed sample_args).2).
Proof.
  apply (init_twice_raises (H := sample_lib) () "python" 7 "v1"
           ["requirements.txt"] () "other" "v2" []
           (world_with sample_args) sample_args); reflexivity.
Defined.

Lemma init_returns_iff_sample :
  is_ok (constructed sample_args).1 = true
  ∧ is_ok (constructed bad_base_args).1 = false.
Proof.
  unfold constructed. split.
  - rewrite (init_returns_iff (H := sample_lib) () "python" 7 "v1"
               ["requirements.txt"] (world_with sample_args) sample_args);
      reflexivity.
  - rewrite (init_returns_iff (H := sample_lib) () "python" 7 "v1"
               ["requirements.txt"] (world_with bad_base_args) bad_base_args);
      reflexivity.
Defined.

Lemma init_base_image_sample :
  _base_image (constructed_self tarball_args)
  = FromTarball (Collaborators := sample_lib) "/tmp/base.tar".
Proof.
  destruct (init_base_image (H := sample_lib) () "python" 7 "v1"
              ["requirements.txt"] (world_with tarball_args) tarball_args
              (constructed_self tarball_args) (constructed tarball_args).2)
    as [Htar _].
  - reflexivity.
  - vm_compute. reflexivity.
  - apply (Htar "/tmp/base.tar"); [reflexivity|discriminate].
Defined.

Lemma init_cache_sample :
  repo (_cache (constructed_self tarball_args)) = RepoName "gcr.io/cache"
  ∧ repo (_cache (constructed_self sample_args))
    = RepoOf (H := sample_lib) "gcr.io/app:v1".
Proof.
  split.
  - destruct (init_cache (H := sample_lib) () "python" 7 "v1"
                ["requirements.txt"] (world_with tarball_args) tarball_args
                (constructed_self tarball_args) (constructed tarball_args).2)
      as [Hnamed _].
    + reflexivity.
    + vm_compute. reflexivity.
    + apply (Hnamed "gcr.io/cache"); [reflexivity|discriminate].
  - destruct (init_cache (H := sample_lib) () "python" 7 "v1"
                ["requirements.txt"] (world_with sample_args) sample_args
                (constructed_self sample_args) (constructed sample_args).2)
      as (_ & Hdefault & _).
    + reflexivity.
    + vm_compute. reflexivity.
    + rewrite Hdefault; reflexivity.
Defined.

Lemma init_bad_reference_sample :
  (constructed bad_base_args).1 = inl BadNameException
  ∧ entrypoint <$> heap (constructed bad_base_args).2 !! 7
    = Some (PyList ["a"; "b"; "c"]).
Proof.
  unfold constructed.
  rewrite (init_bad_reference (H := sample_lib) () "python" 7 "v1"
             ["requirements.txt"] (world_with bad_base_args) bad_base_args
             BadNameException).
  - split; reflexivity.
  - reflexivity.
  - reflexivity.
  - reflexivity.
  - left. reflexivity.
Defined.

Lemma init_then_store_tarball_sample :
  ∃ target_image w2,
    docker_name_Tag (Collaborators := sample_lib) "gcr.io/app:v1"
    = inr target_image
    ∧ StoreImage (constructed_self sample_args) img3 (constructed sample_args).2
      = (inr (), w2)
    ∧ files w2 = <["/tmp/out.tar" := {| tar_name := target_image;
                                        tar_image := img3 |}]> ∅
    ∧ pushes w2 = [].
Proof.
  apply (init_then_store_tarball (H := sample_lib) () "python" 7 "v1"
           ["requirements.txt"] (world_with sample_args) sample_args
           (constructed_self sample_args) (constructed sample_args).2 img3
           "/tmp/out.tar").
  - reflexivity.
  - vm_compute. reflexivity.
  - reflexivity.
  - discriminate.
Defined.

Lemma init_then_upload_sample :
  ∃ base_name target_image w2,
    docker_name_Tag (Collaborators := sample_lib) "gcr.io/base:latest"
    = inr base_name
    ∧ docker_name_Tag (Collaborators := sample_lib) "gcr.io/app:v1"
      = inr target_image
    ∧ StoreImage (constructed_self upload_args) img3 (constructed upload_args).2
      = (inr (), w2)
    ∧ pushes w2 = [ {| push_name := target_image;
                       push_creds := Resolve target_image;
                       push_transport := {| size_ := 32 |};
                       push_threads := 32;
                       push_mount := [base_name];
                       push_image := img3 |} ]
    ∧ files w2 = ∅.
Proof.
  apply (init_then_upload (H := sample_lib) () "python" 7 "v1"
           ["requirements.txt"] (world_with upload_args) upload_args
           (constructed_self upload_args) (constructed upload_args).2 img3).
  - reflexivity.
  - vm_compute. reflexivity.
  - reflexivity.
  - reflexivity.
Defined.

Lemma join_split_sample :
  str.split (join space ["a"; ""; "b"]) space = ["a"; ""; "b"].
Proof.
  apply (join_split ["a"; ""; "b"] space); [discriminate|].
  repeat constructor.
Defined.
